(** * Telephone: the [grunt] models (Game, Chain, Message)

    A shallow embedding of [telephone-app/grunt/models.py].  The Django
    models are records, the relational store is a record of tables, and a
    model method is a computation in a small state-and-exception monad over
    the store and the database's source of randomness.

    What is taken from Django rather than from the models: a query set
    without [order_by] returns rows in table order; a query set is lazy,
    but no method writes between building and reading one, so it is read
    where it is built; [full_clean] checks the declared fields; [save]
    inserts under the next key and refuses a related object that was never
    saved (Django 1.8 and later).  Integer ranges of a database backend and
    deletion of rows are not modelled. *)

From Stdlib Require Import ZArith List Lia Permutation Ascii.
From stdpp Require Import base decidable option list sorting gmap strings pretty.

Local Open Scope Z_scope.
Local Open Scope string_scope.

(** ** Rows and instances *)

(** [class Game(models.Model)]: the fields of lines 18-36. *)
Record Game : Type := Build_Game {
  game_pk : Z;
  game_name : option string;
  game_type : string;
  completion_code : option string;
  chain_order : string;
  status : string
}.

(** [class Chain(models.Model)]: [game] is the foreign key, kept as the
    primary key of the game it points to. *)
Record Chain : Type := Build_Chain {
  chain_pk : Z;
  chain_game : Z;
  selection_method : string
}.

(** A stored row of the message table. *)
Record MessageRow : Type := Build_MessageRow {
  row_id : Z;
  row_chain : Z;
  row_name : string;
  row_parent : option Z;
  row_generation : Z;
  row_audio : string
}.

#[global] Instance Chain_eq_dec : EqDecision Chain.
Proof. solve_decision. Defined.

#[global] Instance MessageRow_eq_dec : EqDecision MessageRow.
Proof. solve_decision. Defined.

(** [class Message(models.Model)]: a Python instance.  [pk] is [None]
    until the instance is saved; [chain_id] and [parent_id] are the raw
    foreign keys; [parent_obj] is the related object an instance remembers
    when it was built with [parent = obj] (Django's relation cache), absent
    on an instance that was loaded from the table. *)
#[warnings="-register-all"] Inductive Message : Type := Build_Message {
  pk : option Z;
  chain_id : option Z;
  name : string;
  parent_id : option Z;
  generation : Z;
  audio : string;
  parent_obj : option Message
}.

(** The relational store: one list of rows per table, in table order. *)
Record DB : Type := Build_DB {
  games : list Game;
  chains : list Chain;
  messages : list MessageRow
}.

(** The state a method runs in: the store, and the draws the database
    will use for [ORDER BY RANDOM()]. *)
Record World : Type := Build_World {
  db : DB;
  entropy : list nat
}.

(** ** Exceptions and the method monad *)

Inductive Exception : Type :=
  | Chain_DoesNotExist (msg : string)
  | Message_DoesNotExist (msg : string)
  | ValidationError (fields : list string)
  | ValueError (msg : string)
  | IntegrityError (msg : string)
  | IndexError
  | NoReverseMatch (viewname : string).

Inductive Outcome (A : Type) : Type :=
  | Return (a : A)
  | Raise (e : Exception).
Arguments Return {A} a.
Arguments Raise {A} e.

Definition ORM (A : Type) : Type := World -> Outcome A * World.

Definition ret {A} (a : A) : ORM A := fun w => (Return a, w).
Definition raise {A} (e : Exception) : ORM A := fun w => (Raise e, w).
Definition bind {A B} (c : ORM A) (k : A -> ORM B) : ORM B :=
  fun w => match c w with
           | (Return a, w') => k a w'
           | (Raise e, w') => (Raise e, w')
           end.
Definition get_db : ORM DB := fun w => (Return (db w), w).

Notation "x <- c ;; k" := (bind c (fun x => k))
  (at level 100, c at next level, right associativity).

(** ** Query sets *)

(** [order_by('?')]: the rows come back in an order chosen by the
    database.  Each row is placed among the ones already drawn at a
    position taken from the next draw, so every order can come back. *)
Fixpoint insert_at {A} (n : nat) (x : A) (l : list A) : list A :=
  match n, l with
  | O, _ => x :: l
  | S _, [] => [x]
  | S n', y :: t => y :: insert_at n' x t
  end.

Fixpoint shuffle {A} (draws : list nat) (l : list A) : list A :=
  match l with
  | [] => []
  | x :: t =>
      insert_at (Nat.modulo (hd O draws) (S (length t))) x (shuffle (tl draws) t)
  end.

Definition order_by_random {A} (rows : list A) : ORM (list A) :=
  fun w => (Return (shuffle (entropy w) rows),
            {| db := db w; entropy := drop (length rows) (entropy w) |}).

(** [queryset[0]] *)
Definition index0 {A} (rows : list A) : ORM A :=
  match rows with
  | [] => raise IndexError
  | x :: _ => ret x
  end.

(** [.exclude(pk__in = receipts)] on chains. *)
Definition exclude_pk_in (receipts : list Z) (rows : list Chain) : list Chain :=
  filter (fun c => chain_pk c ∉ receipts) rows.

(** [game.chain_set.all()]: the chains whose foreign key is this game, in
    table order (no [order_by] is applied). *)
Definition chain_set (self : Game) : ORM (list Chain) :=
  d <- get_db ;;
  ret (filter (fun c => chain_game c = game_pk self) (chains d)).

(** The instance a query builds from a row: nothing is remembered about
    the parent but its key. *)
Definition from_db (r : MessageRow) : Message :=
  {| pk := Some (row_id r);
     chain_id := Some (row_chain r);
     name := row_name r;
     parent_id := row_parent r;
     generation := row_generation r;
     audio := row_audio r;
     parent_obj := None |}.

(** [chain.message_set.filter(audio = a)], in table order. *)
Definition message_set_filter_audio (self : Chain) (a : string)
  : ORM (list Message) :=
  d <- get_db ;;
  ret (from_db <$>
         filter (fun r => row_chain r = chain_pk self /\ row_audio r = a)
                (messages d)).

(** [sorted(rows, key = key)]: Python's sort is stable, so a row goes in
    front of the rows after it that have the same key. *)
Fixpoint insert_sorted {A} (key : A -> Z) (x : A) (l : list A) : list A :=
  match l with
  | [] => [x]
  | y :: t => if (key x <=? key y)%Z then x :: y :: t
              else y :: insert_sorted key x t
  end.

Definition sorted {A} (l : list A) (key : A -> Z) : list A :=
  foldr (insert_sorted key) [] l.

(** Look-ups by primary key. *)
Definition get_chain (d : DB) (k : Z) : option Chain :=
  find (fun c => (chain_pk c =? k)%Z) (chains d).

Definition get_message (d : DB) (k : Z) : option MessageRow :=
  find (fun r => (row_id r =? k)%Z) (messages d).

Definition get_game (d : DB) (k : Z) : option Game :=
  find (fun g => (game_pk g =? k)%Z) (games d).

(** ** Game *)

Module Game.

(** Lines 50-76. *)
Definition pick_next_chain (self : Game) (receipts : list Z) : ORM Chain :=
  chains <- chain_set self ;;
  if decide (length chains = O) then
    raise (Chain_DoesNotExist "No chains in game")
  else
    let remaining_chains := exclude_pk_in receipts chains in
    match remaining_chains with
    | [] => raise (Chain_DoesNotExist "All receipts present")
    | _ =>
        remaining_chains <-
          (if decide (chain_order self = "RND")
           then order_by_random remaining_chains
           else ret remaining_chains) ;;
        index0 remaining_chains
    end.

(** Lines 78-80: ['game-{pk}'.format(pk = self.pk)]. *)
Definition dirname (self : Game) : string :=
  "game-" ++ pretty (game_pk self).

(** Lines 82-84: [self.name or self.dirname()]; a name that is [None] or
    empty is false. *)
Definition __str__ (self : Game) : string :=
  match game_name self with
  | Some n => if decide (n = "") then dirname self else n
  | None => dirname self
  end.

End Game.

(** ** Chain *)

Module Chain.

(** Lines 93-111. *)
Definition pick_next_message (self : Chain) : ORM Message :=
  messages <- message_set_filter_audio self "" ;;
  if decide (length messages = O) then
    raise (Message_DoesNotExist "No available messages")
  else
    messages <-
      (if decide (selection_method self = "RND")
       then order_by_random messages
       else ret (sorted messages generation)) ;;
    index0 messages.

(** Lines 120-122. *)
Definition dirname (self : Chain) : string :=
  "chain-" ++ pretty (chain_pk self).

(** Lines 124-130: ['{game_dir}/{chain_dir}'].  [self.game] fetches the
    game by its key; [None] stands for the [Game.DoesNotExist] it raises
    when there is no such game. *)
Definition dirpath (d : DB) (self : Chain) : option string :=
  match get_game d (chain_game self) with
  | Some g => Some (Game.dirname g ++ "/" ++ dirname self)
  | None => None
  end.

End Chain.

(** ** Message *)

(** The values a serialized message holds. *)
Inductive Value : Type :=
  | VNone
  | VInt (z : Z)
  | VStr (s : string).

Definition of_pk (k : option Z) : Value :=
  match k with
  | Some z => VInt z
  | None => VNone
  end.

(** A method that assigns to the fields of [self]: it hands back the
    instance as the call left it, also when it raises. *)
Definition Method (A : Type) : Type :=
  Message -> World -> Outcome A * Message * World.

(** Call a method on a local object and go on with that object. *)
Definition invoke (m : Method unit) (obj : Message) : ORM Message :=
  fun w => match m obj w with
           | (Return _, obj', w') => (Return obj', w')
           | (Raise e, _, w') => (Raise e, w')
           end.

Definition set_generation (g : Z) (m : Message) : Message :=
  {| pk := pk m; chain_id := chain_id m; name := name m;
     parent_id := parent_id m; generation := g; audio := audio m;
     parent_obj := parent_obj m |}.

Definition set_pk (k : Z) (m : Message) : Message :=
  {| pk := Some k; chain_id := chain_id m; name := name m;
     parent_id := parent_id m; generation := generation m; audio := audio m;
     parent_obj := parent_obj m |}.

(** The row an instance is written as, under primary key [k], for a
    chain [c]. *)
Definition to_row (k c : Z) (m : Message) : MessageRow :=
  {| row_id := k; row_chain := c; row_name := name m;
     row_parent := parent_id m; row_generation := generation m;
     row_audio := audio m |}.

(** The key of an inserted row: one more than every key of the table. *)
Definition fresh_pk (rows : list MessageRow) : Z :=
  foldr Z.max 0 (row_id <$> rows) + 1.

(** [UPDATE ... WHERE id = k]. *)
Definition update_row (r : MessageRow) (rows : list MessageRow)
  : list MessageRow :=
  (fun x => if (row_id x =? row_id r)%Z then r else x) <$> rows.

Definition set_messages (rows : list MessageRow) (w : World) : World :=
  {| db := {| games := games (db w); chains := chains (db w);
              messages := rows |};
     entropy := entropy w |}.

Module Message.

(** [Message(chain = c, parent = p)]: the other fields take their
    defaults (lines 135-138). *)
Definition init (c : Chain) (p : option Message) : Message :=
  {| pk := None;
     chain_id := Some (chain_pk c);
     name := "";
     parent_id := p ≫= pk;
     generation := 0;
     audio := "";
     parent_obj := p |}.

(** [self.chain]: the related chain, fetched by its key. *)
Definition chain (self : Message) : ORM Chain :=
  match chain_id self with
  | None => raise (Chain_DoesNotExist "Message has no chain.")
  | Some k =>
      d <- get_db ;;
      match get_chain d k with
      | Some c => ret c
      | None => raise (Chain_DoesNotExist "Chain matching query does not exist.")
      end
  end.

(** [self.parent]: the remembered object if there is one, otherwise the
    row [parent_id] points to, otherwise [None]. *)
Definition parent (self : Message) : ORM (option Message) :=
  match parent_obj self with
  | Some p => ret (Some p)
  | None =>
      match parent_id self with
      | None => ret None
      | Some k =>
          d <- get_db ;;
          match get_message d k with
          | Some r => ret (Some (from_db r))
          | None =>
              raise (Message_DoesNotExist "Message matching query does not exist.")
          end
      end
  end.

(** [models.Model.full_clean] on the fields of lines 134-138: [chain] is
    required and must exist; [name] holds at most 30 characters; [parent]
    may be blank and must exist otherwise; [generation] is not editable and
    [audio] may be blank, so neither is checked. *)
Definition field_errors (d : DB) (self : Message) : list string :=
  (match chain_id self with
   | None => ["chain"]
   | Some k => match get_chain d k with Some _ => [] | None => ["chain"] end
   end) ++
  (if decide (30 < String.length (name self))%nat then ["name"] else []) ++
  (match parent_id self with
   | None => []
   | Some k => match get_message d k with Some _ => [] | None => ["parent"] end
   end).

Definition Model_full_clean (self : Message) : ORM unit :=
  d <- get_db ;;
  match field_errors d self with
  | [] => ret tt
  | errors => raise (ValidationError errors)
  end.

(** Lines 140-143. *)
Definition full_clean : Method unit := fun self w =>
  match parent self w with
  | (Raise e, w') => (Raise e, self, w')
  | (Return p, w') =>
      let self :=
        match p with
        | Some p => set_generation (generation p + 1) self
        | None => self
        end in
      let (r, w'') := Model_full_clean self w' in
      (r, self, w'')
  end.

(** Lines 176-177, [models.Model.save]: refuse a remembered parent that
    was never saved; a row needs a chain; an instance without a key is
    inserted under a fresh key, which it then holds; an instance with a key
    replaces the row of that key, or is inserted under it when there is
    none. *)
Definition unsaved_parent (self : Message) : bool :=
  match parent_obj self with
  | Some p => match pk p with None => true | Some _ => false end
  | None => false
  end.

Definition save : Method unit := fun self w =>
  if unsaved_parent self then
    (Raise (ValueError "save() prohibited: unsaved related object 'parent'."),
     self, w)
  else
    match chain_id self with
    | None => (Raise (IntegrityError "NOT NULL constraint failed: chain_id"),
               self, w)
    | Some c =>
        let rows := messages (db w) in
        match pk self with
        | None =>
            let k := fresh_pk rows in
            (Return tt, set_pk k self,
             set_messages (rows ++ [to_row k c self]) w)
        | Some k =>
            match get_message (db w) k with
            | Some _ =>
                (Return tt, self,
                 set_messages (update_row (to_row k c self) rows) w)
            | None =>
                (Return tt, self,
                 set_messages (rows ++ [to_row k c self]) w)
            end
        end
    end.

(** Lines 170-174. *)
Definition replicate (self : Message) : ORM Message :=
  c <- chain self ;;
  let child := init c (Some self) in
  child <- invoke full_clean child ;;
  child <- invoke save child ;;
  ret child.

(** Lines 164-168: the name, or ['message-{pk}'] with the key as Python
    prints it ([None] for an instance that was never saved). *)
Definition __str__ (self : Message) : string :=
  if decide (name self = "") then
    "message-" ++ match pk self with
                  | Some k => pretty k
                  | None => "None"
                  end
  else name self.

Section Serialization.

(** [django.core.urlresolvers.reverse(viewname, kwargs = {'pk': pk})]
    against the project's URL configuration, and the storage's [url] of a
    stored file name.  The routes 'sprout', 'close' and 'upload' and the
    media settings are not part of the models. *)
Variable reverse : string -> option Z -> Outcome string.
Variable url : string -> string.

Definition reverse_orm (viewname : string) (k : option Z) : ORM string :=
  fun w => (reverse viewname k, w).

(** Lines 145-159. *)
Definition to_dict (self : Message) : ORM (gmap string Value) :=
  let message_dict : gmap string Value := ∅ in
  let message_dict := <["pk" := of_pk (pk self)]> message_dict in
  let message_dict := <["generation" := VInt (generation self)]> message_dict in
  let message_dict :=
    <["audio" := if decide (audio self = "") then VNone
                 else VStr (url (audio self))]> message_dict in
  p <- parent self ;;
  let message_dict :=
    <["parent" := match p with
                  | Some p => of_pk (pk p)
                  | None => VNone
                  end]> message_dict in
  sprout <- reverse_orm "sprout" (pk self) ;;
  let message_dict := <["sprout_url" := VStr sprout]> message_dict in
  if decide (audio self = "") then
    close <- reverse_orm "close" (pk self) ;;
    let message_dict := <["close_url" := VStr close]> message_dict in
    upload <- reverse_orm "upload" (pk self) ;;
    let message_dict := <["upload_url" := VStr upload]> message_dict in
    ret message_dict
  else
    ret message_dict.

End Serialization.

End Message.

(** ** Chain.to_dict *)

(** The values of a serialized chain: its key, and the list of its
    serialized messages. *)
Inductive ChainValue : Type :=
  | CInt (z : Z)
  | CMessages (l : list (gmap string Value)).

(** [[f(x) for x in xs]]: left to right, stopping at the first raise. *)
Fixpoint for_each {A B} (f : A -> ORM B) (xs : list A) : ORM (list B) :=
  match xs with
  | [] => ret []
  | x :: t => y <- f x ;; ys <- for_each f t ;; ret (y :: ys)
  end.

(** [chain.message_set.all()], in table order. *)
Definition message_set (self : Chain) : ORM (list Message) :=
  d <- get_db ;;
  ret (from_db <$> filter (fun r => row_chain r = chain_pk self) (messages d)).

(** Lines 113-118 of [class Chain], placed here because it calls
    [Message.to_dict]. *)
Definition Chain_to_dict (reverse : string -> option Z -> Outcome string)
    (url : string -> string) (self : Chain) : ORM (gmap string ChainValue) :=
  let chain_dict : gmap string ChainValue := ∅ in
  let chain_dict := <["pk" := CInt (chain_pk self)]> chain_dict in
  ms <- message_set self ;;
  dicts <- for_each (Message.to_dict reverse url) ms ;;
  let chain_dict := <["messages" := CMessages dicts]> chain_dict in
  ret chain_dict.

(** * Vocabulary of the properties *)

(** An instance as a query would load it again: without the remembered
    parent object. *)
Definition drop_cache (m : Message) : Message :=
  {| pk := pk m; chain_id := chain_id m; name := name m;
     parent_id := parent_id m; generation := generation m; audio := audio m;
     parent_obj := None |}.

(** The characters of a printed key: digits and the sign. *)
Definition key_char (a : ascii) : bool :=
  match a with
  | "0" | "1" | "2" | "3" | "4" | "5" | "6" | "7" | "8" | "9" | "-" => true
  | _ => false
  end%char.

Fixpoint all_chars (P : ascii -> bool) (s : string) : bool :=
  match s with
  | EmptyString => true
  | String a s' => P a && all_chars P s'
  end.

(** A game, or a message, that shows under its key rather than a name. *)
Definition unnamed_game (g : Game) : Prop :=
  game_name g = None \/ game_name g = Some "".
Definition unnamed_message (m : Message) : Prop := name m = "".

(** Replicating [n] times down a line: each time the new child. *)
Fixpoint descend (n : nat) (m : Message) : ORM Message :=
  match n with
  | O => ret m
  | S n' => child <- Message.replicate m ;; descend n' child
  end.

(** The rows [pick_next_chain] chooses from (line 69), read off a store. *)
Definition remaining_chains (self : Game) (receipts : list Z) (d : DB)
  : list Chain :=
  exclude_pk_in receipts
    (filter (fun c => chain_game c = game_pk self) (chains d)).

(** A chain of the game that the player has not visited. *)
Definition remaining (self : Game) (receipts : list Z) (d : DB) (c : Chain)
  : Prop :=
  c ∈ chains d /\ chain_game c = game_pk self /\ chain_pk c ∉ receipts.

#[global] Instance remaining_dec self receipts d c :
  Decision (remaining self receipts d c).
Proof. unfold remaining. apply _. Defined.

(** Chains are added at the end of their table under increasing keys, and
    a scan without [order_by] reads the table from its start. *)
Definition chains_by_pk (d : DB) : Prop :=
  StronglySorted Z.lt (chain_pk <$> chains d).

(** An unrecorded message of the chain: what [pick_next_message] may
    serve. *)
Definition available (self : Chain) (d : DB) (r : MessageRow) : Prop :=
  r ∈ messages d /\ row_chain r = chain_pk self /\ row_audio r = "".

#[global] Instance available_dec self d r : Decision (available self d r).
Proof. unfold available. apply _. Defined.

(** The rows [pick_next_message] chooses from (line 102), read off a
    store. *)
Definition unrecorded_rows (self : Chain) (d : DB) : list MessageRow :=
  filter (fun r => row_chain r = chain_pk self /\ row_audio r = "")
         (messages d).

(** The entries a message descends from, nearest first. *)
Fixpoint ancestors (d : DB) (fuel : nat) (r : MessageRow) : list MessageRow :=
  match fuel with
  | O => []
  | S n =>
      match row_parent r ≫= get_message d with
      | Some p => p :: ancestors d n p
      | None => []
      end
  end.

(** The recordings among some entries. *)
Definition count_done (l : list MessageRow) : nat :=
  length (filter (fun a => row_audio a <> "") l).

(** In the words of the specification: the completed entries of the line
    a candidate continues, that is the recordings it descends from. *)
Definition completed_entries (d : DB) (r : MessageRow) : nat :=
  count_done (ancestors d (length (messages d)) r).

(** What the methods keep true of the message table: keys are not
    reused, every message points to a chain that exists, a message without
    parent is at generation 0, and a message with a parent sits in its
    parent's chain, one generation below it. *)
Record store_ok (d : DB) : Prop := Build_store_ok {
  ids_unique : NoDup (row_id <$> messages d);
  chains_exist :
    forall r, r ∈ messages d -> is_Some (get_chain d (row_chain r));
  generations_from_zero :
    forall r, r ∈ messages d -> (0 <= row_generation r)%Z;
  parents_above :
    forall r, r ∈ messages d ->
      match row_parent r with
      | None => row_generation r = 0%Z
      | Some k =>
          exists p, get_message d k = Some p
                    /\ row_chain p = row_chain r
                    /\ row_generation r = (row_generation p + 1)%Z
      end
}.

(** [Message(chain = c, parent = p)], cleaned and then saved: how
    [replicate] makes its child, for any chain and parent. *)
Definition create (c : Chain) (p : option Message) : ORM Message :=
  child <- invoke Message.full_clean (Message.init c p) ;;
  child <- invoke Message.save child ;;
  ret child.

(** The child [create] builds: the fields of [init], the generation the
    cleaning gives, the key the insertion gives. *)
Definition child_of (c : Chain) (p : option Message) (k : Z) : Message :=
  set_pk k
    (set_generation
       (match p with Some m => generation m + 1 | None => 0 end)%Z
       (Message.init c p)).

(** In the words of the specification: the entries of every chain are a
    linear list through their parent references.  At most one entry of a
    chain has no parent (the first), a parent is an entry of the same
    chain, and no two entries of a chain have the same parent. *)
Definition linear (d : DB) : Prop :=
  forall r, r ∈ messages d ->
    (row_parent r = None ->
     forall r', r' ∈ messages d -> row_chain r' = row_chain r ->
                row_parent r' = None -> r' = r)
    /\ (forall k, row_parent r = Some k ->
         exists p, get_message d k = Some p /\ row_chain p = row_chain r)
    /\ (forall r', r' ∈ messages d -> row_chain r' = row_chain r ->
         is_Some (row_parent r) -> row_parent r' = row_parent r -> r' = r).

(** At most one entry of a chain has no parent. *)
Definition single_root (d : DB) : Prop :=
  forall r r', r ∈ messages d -> r' ∈ messages d ->
    row_chain r' = row_chain r ->
    row_parent r = None -> row_parent r' = None -> r' = r.

(** The store with one more message row. *)
Definition with_row (d : DB) (x : MessageRow) : DB :=
  {| games := games d; chains := chains d; messages := messages d ++ [x] |}.

(** ** A small store to run the methods on *)

Definition game_seq : Game := Build_Game 1 None "PUB" None "SEQ" "ACTIV".
Definition game_rnd : Game := Build_Game 2 None "PUB" None "RND" "ACTIV".
Definition chain_a : Chain := Build_Chain 1 1 "YNG".
Definition chain_b : Chain := Build_Chain 2 1 "YNG".
Definition chain_c : Chain := Build_Chain 3 2 "RND".
Definition chain_d : Chain := Build_Chain 4 2 "RND".
Definition row_seed : MessageRow := Build_MessageRow 1 1 "" None 0 "a.wav".
Definition row_first : MessageRow := Build_MessageRow 2 1 "" (Some 1) 1 "".
Definition row_second : MessageRow := Build_MessageRow 3 1 "" (Some 2) 2 "".
Definition store0 : DB :=
  Build_DB [game_seq; game_rnd] [chain_a; chain_b; chain_c; chain_d]
           [row_seed; row_first; row_second].
Definition world0 : World := Build_World store0 [5; 3; 1; 7]%nat.
Definition world1 : World := Build_World store0 [2; 4; 6]%nat.

(** Routes of the form [/<pk>/<viewname>], which need a key, and files
    served under [/media/]. *)
Definition reverse0 (viewname : string) (k : option Z) : Outcome string :=
  match k with
  | Some _ => Return ("/pk/" ++ viewname)
  | None => Raise (NoReverseMatch viewname)
  end.
Definition url0 (file : string) : string := "/media/" ++ file.

(** A store whose only message is recorded. *)
Definition store_one : DB := Build_DB [game_seq] [chain_a] [row_seed].
Definition world_one : World := Build_World store_one [].

(** An instance that was never saved, and one whose key has no row. *)
Definition unsaved : Message := Message.init chain_a None.
Definition stranger : Message :=
  Build_Message (Some 9) (Some 1) "" None 0 "" None.

(** * Properties *)

(** ** The monad and the query sets *)

Section QuerySets.

Context {A : Type}.

Lemma insert_at_perm (n : nat) (x : A) (l : list A) :
  Permutation (insert_at n x l) (x :: l).
Proof.
  revert n; induction l as [|y t IH]; intros [|n]; simpl; try reflexivity.
  rewrite IH. apply perm_swap.
Qed.

Lemma shuffle_perm (draws : list nat) (l : list A) :
  Permutation (shuffle draws l) l.
Proof.
  revert draws; induction l as [|x t IH]; intros draws; simpl.
  - reflexivity.
  - rewrite insert_at_perm. constructor. apply IH.
Qed.

Lemma shuffle_elem_of (draws : list nat) (l : list A) (x : A) :
  x ∈ shuffle draws l <-> x ∈ l.
Proof. by rewrite (shuffle_perm draws l). Qed.

Lemma shuffle_nil_inv (draws : list nat) (l : list A) :
  shuffle draws l = [] -> l = [].
Proof.
  intros H. apply Permutation_nil.
  rewrite <- H. apply shuffle_perm.
Qed.

(** What [order_by('?')] followed by [[0]] gives on rows that are there. *)
Lemma random_first (rows : list A) (w : World) :
  rows <> [] ->
  exists x w',
    (rows' <- order_by_random rows ;; index0 rows') w = (Return x, w')
    /\ x ∈ rows /\ db w' = db w.
Proof.
  intros Hne. unfold bind, order_by_random.
  destruct (shuffle (entropy w) rows) as [|x s] eqn:E.
  - apply shuffle_nil_inv in E. contradiction.
  - exists x. eexists. split; [reflexivity|]. split; [|reflexivity].
    apply (shuffle_elem_of (entropy w)). rewrite E. left.
Qed.

Variable key : A -> Z.

Lemma insert_sorted_perm (x : A) (l : list A) :
  Permutation (insert_sorted key x l) (x :: l).
Proof.
  induction l as [|y t IH]; simpl; [reflexivity|].
  destruct (key x <=? key y)%Z; [reflexivity|].
  rewrite IH. apply perm_swap.
Qed.

Lemma sorted_perm (l : list A) : Permutation (sorted l key) l.
Proof.
  induction l as [|x t IH]; simpl; [reflexivity|].
  fold (sorted t key). rewrite insert_sorted_perm. by constructor.
Qed.

(** The head of a sorted list has the least key. *)
Lemma insert_sorted_head (x : A) (l : list A) :
  (forall h t, l = h :: t -> forall y, y ∈ l -> (key h <= key y)%Z) ->
  forall h t, insert_sorted key x l = h :: t ->
  forall y, y ∈ x :: l -> (key h <= key y)%Z.
Proof.
  destruct l as [|a l']; simpl; intros Hl h t Heq y Hy.
  - inversion Heq; subst. apply list_elem_of_singleton in Hy. subst. lia.
  - specialize (Hl a l' eq_refl).
    destruct (key x <=? key a)%Z eqn:E.
    + apply Z.leb_le in E. inversion Heq; subst.
      apply elem_of_cons in Hy as [->|Hy]; [lia|].
      specialize (Hl y Hy). lia.
    + apply Z.leb_gt in E. inversion Heq; subst.
      apply elem_of_cons in Hy as [->|Hy]; [lia|]. by apply Hl.
Qed.

Lemma sorted_head_least (l : list A) (h : A) (t : list A) :
  sorted l key = h :: t -> forall y, y ∈ l -> (key h <= key y)%Z.
Proof.
  revert h t; induction l as [|x l IH]; intros h t Heq y Hy.
  - inversion Hy.
  - simpl in Heq. fold (sorted l key) in Heq.
    eapply insert_sorted_head; [|exact Heq|].
    + intros h' t' E y' Hy'. eapply IH; [exact E|].
      by rewrite <- (sorted_perm l).
    + apply elem_of_cons in Hy as [->|Hy]; [left|right].
      by rewrite (sorted_perm l).
Qed.

Lemma sorted_nil_inv (l : list A) : sorted l key = [] -> l = [].
Proof.
  intros H. apply Permutation_nil. rewrite <- H. apply sorted_perm.
Qed.

End QuerySets.

(** ** Game.pick_next_chain *)

Section PickNextChain.

Variable self : Game.
Variable receipts : list Z.

Lemma candidates_remaining (w : World) (c : Chain) :
  c ∈ remaining_chains self receipts (db w) <-> remaining self receipts (db w) c.
Proof.
  unfold remaining_chains, exclude_pk_in, remaining.
  rewrite !list_elem_of_filter. tauto.
Qed.

Lemma pick_next_chain_none (w : World) :
  remaining_chains self receipts (db w) = [] ->
  exists msg,
    Game.pick_next_chain self receipts w = (Raise (Chain_DoesNotExist msg), w).
Proof.
  unfold remaining_chains, Game.pick_next_chain, chain_set, bind, get_db, ret.
  simpl.
  intros E. destruct (decide _) as [_|_]; [by eexists|].
  rewrite E. by eexists.
Qed.

Lemma pick_next_chain_some (w : World) (r : Chain) (rs : list Chain) :
  remaining_chains self receipts (db w) = r :: rs ->
  exists c w',
    Game.pick_next_chain self receipts w = (Return c, w')
    /\ c ∈ r :: rs /\ db w' = db w
    /\ (chain_order self <> "RND" -> c = r /\ w' = w).
Proof.
  unfold remaining_chains, Game.pick_next_chain, chain_set. intros E.
  unfold bind at 1. unfold bind at 1. unfold get_db, ret at 1.
  destruct (decide _) as [Hlen|_].
  { apply nil_length_inv in Hlen. rewrite Hlen in E. discriminate. }
  rewrite E. destruct (decide (chain_order self = "RND")) as [Hr|Hr].
  - destruct (random_first (r :: rs) w) as (x & w' & Hx & Hin & Hdb);
      [discriminate|].
    exists x, w'. split; [exact Hx|]. split; [exact Hin|].
    split; [exact Hdb|]. intros; contradiction.
  - exists r, w. split; [reflexivity|]. split; [left|]. by split.
Qed.

End PickNextChain.

Lemma filter_head_least (P : Chain -> Prop) `{!forall c, Decision (P c)}
    (l : list Chain) (h : Chain) (t : list Chain) :
  StronglySorted Z.lt (chain_pk <$> l) ->
  filter P l = h :: t ->
  forall y, y ∈ l -> P y -> (chain_pk h <= chain_pk y)%Z.
Proof.
  induction l as [|x l IH]; intros Hs E y Hy Py; [inversion Hy|].
  rewrite fmap_cons in Hs. apply StronglySorted_cons in Hs as [Hx Hs].
  rewrite filter_cons in E. destruct (decide (P x)) as [Px|Px].
  - inversion E; subst. apply elem_of_cons in Hy as [->|Hy]; [lia|].
    rewrite Forall_forall in Hx.
    assert (chain_pk h < chain_pk y)%Z; [|lia].
    apply Hx. by apply list_elem_of_fmap_2.
  - apply elem_of_cons in Hy as [->|Hy]; [contradiction|]. by apply IH.
Qed.

(** C2: whenever a chain of the game is not in the receipts,
    [pick_next_chain] returns a chain of that game that is not in the
    receipts, whatever the game's [chain_order] (sequential or random). *)
Theorem pick_next_chain_unvisited (self : Game) (receipts : list Z)
    (w : World) :
  (exists c, remaining self receipts (db w) c) ->
  exists c w',
    Game.pick_next_chain self receipts w = (Return c, w')
    /\ c ∈ chains (db w)
    /\ chain_game c = game_pk self
    /\ chain_pk c ∉ receipts.
Proof.
  intros [c0 Hc0]. apply candidates_remaining in Hc0.
  destruct (remaining_chains self receipts (db w)) as [|r rs] eqn:E;
    [inversion Hc0|].
  destruct (pick_next_chain_some self receipts w r rs E)
    as (c & w' & Hpick & Hin & _).
  exists c, w'. split; [exact Hpick|].
  rewrite <- E in Hin. by apply candidates_remaining in Hin.
Qed.

Lemma pick_next_chain_unvisited_witness :
  (exists c w',
      Game.pick_next_chain game_rnd [3] world0 = (Return c, w')
      /\ c ∈ chains (db world0)
      /\ chain_game c = game_pk game_rnd
      /\ chain_pk c ∉ [3])
  /\ (exists c w',
      Game.pick_next_chain game_seq [1] world0 = (Return c, w')
      /\ c ∈ chains (db world0)
      /\ chain_game c = game_pk game_seq
      /\ chain_pk c ∉ [1]).
Proof.
  split.
  - apply (pick_next_chain_unvisited game_rnd [3] world0).
    exists chain_d. unfold remaining. simpl. split; [|split].
    + do 3 right. left.
    + reflexivity.
    + intros H. apply list_elem_of_singleton in H. discriminate.
  - apply (pick_next_chain_unvisited game_seq [1] world0).
    exists chain_b. unfold remaining. simpl. split; [|split].
    + right. left.
    + reflexivity.
    + intros H. apply list_elem_of_singleton in H. discriminate.
Defined.

(** C4: for a game whose [chain_order] is 'SEQ', on a chain table read in
    key order, [pick_next_chain] returns the remaining chain with the
    smallest primary key. *)
Theorem pick_next_chain_sequential (self : Game) (receipts : list Z)
    (w : World) :
  chain_order self = "SEQ" ->
  chains_by_pk (db w) ->
  (exists c, remaining self receipts (db w) c) ->
  exists c,
    Game.pick_next_chain self receipts w = (Return c, w)
    /\ remaining self receipts (db w) c
    /\ forall c', remaining self receipts (db w) c' ->
                  (chain_pk c <= chain_pk c')%Z.
Proof.
  intros Hseq Hsorted [c0 Hc0]. apply candidates_remaining in Hc0.
  destruct (remaining_chains self receipts (db w)) as [|r rs] eqn:E;
    [inversion Hc0|].
  destruct (pick_next_chain_some self receipts w r rs E)
    as (c & w' & Hpick & Hin & _ & Hfirst).
  destruct Hfirst as [-> ->]; [rewrite Hseq; discriminate|].
  exists r. split; [exact Hpick|]. split.
  - apply candidates_remaining. rewrite E. left.
  - intros c' (Hc' & Hg & Hr).
    unfold remaining_chains, exclude_pk_in in E.
    rewrite list_filter_filter in E.
    eapply filter_head_least; [exact Hsorted|exact E|exact Hc'|by split].
Qed.

Lemma pick_next_chain_sequential_witness :
  exists c,
    Game.pick_next_chain game_seq [1] world0 = (Return c, world0)
    /\ remaining game_seq [1] (db world0) c
    /\ forall c', remaining game_seq [1] (db world0) c' ->
                  (chain_pk c <= chain_pk c')%Z.
Proof.
  apply (pick_next_chain_sequential game_seq [1] world0).
  - reflexivity.
  - unfold chains_by_pk. simpl.
    repeat (apply StronglySorted_cons; split;
            [repeat constructor|]).
    constructor.
  - exists chain_b. unfold remaining. simpl. split; [|split].
    + right. left.
    + reflexivity.
    + intros H. apply list_elem_of_singleton in H. discriminate.
Defined.

(** C8: [pick_next_chain] raises [Chain.DoesNotExist] exactly when every
    chain of the game has its key in the receipts (so also when the game
    has no chain), and the store is the same after the call whether it
    returned or raised. *)
Theorem pick_next_chain_raises_iff (self : Game) (receipts : list Z)
    (w : World) :
  ((exists msg,
       fst (Game.pick_next_chain self receipts w)
       = Raise (Chain_DoesNotExist msg))
   <-> (forall c, c ∈ chains (db w) -> chain_game c = game_pk self ->
                  chain_pk c ∈ receipts))
  /\ db (snd (Game.pick_next_chain self receipts w)) = db w.
Proof.
  destruct (remaining_chains self receipts (db w)) as [|r rs] eqn:E.
  - destruct (pick_next_chain_none self receipts w E) as [msg Hpick].
    rewrite Hpick. simpl. split; [|reflexivity]. split; [|by eexists].
    intros _ c Hc Hg. destruct (decide (chain_pk c ∈ receipts)) as [|Hn];
      [assumption|].
    assert (c ∈ remaining_chains self receipts (db w)) as Hin
      by (by apply candidates_remaining).
    rewrite E in Hin. inversion Hin.
  - destruct (pick_next_chain_some self receipts w r rs E)
      as (c & w' & Hpick & Hin & Hdb & _).
    rewrite Hpick. simpl. split; [|exact Hdb]. split.
    + intros [msg Hmsg]. discriminate.
    + intros Hall. exfalso.
      assert (r ∈ remaining_chains self receipts (db w)) as Hr
        by (rewrite E; left).
      apply candidates_remaining in Hr as (Hr1 & Hr2 & Hr3).
      apply Hr3. by apply Hall.
Qed.

(** ** Chain.pick_next_message *)

Section PickNextMessage.

Variable self : Chain.

Lemma unrecorded_available (w : World) (r : MessageRow) :
  r ∈ unrecorded_rows self (db w) <-> available self (db w) r.
Proof. unfold unrecorded_rows, available. rewrite list_elem_of_filter. tauto. Qed.

Lemma pick_next_message_none (w : World) :
  unrecorded_rows self (db w) = [] ->
  exists msg,
    Chain.pick_next_message self w = (Raise (Message_DoesNotExist msg), w).
Proof.
  unfold unrecorded_rows, Chain.pick_next_message, message_set_filter_audio.
  unfold bind, get_db, ret. simpl. intros ->. simpl. by eexists.
Qed.

Lemma pick_next_message_some (w : World) (r : MessageRow)
    (rs : list MessageRow) :
  unrecorded_rows self (db w) = r :: rs ->
  exists m w',
    Chain.pick_next_message self w = (Return (from_db m), w')
    /\ m ∈ r :: rs /\ db w' = db w
    /\ (selection_method self <> "RND" ->
        w' = w
        /\ hd_error (sorted (from_db <$> r :: rs) generation)
           = Some (from_db m)).
Proof.
  unfold unrecorded_rows, Chain.pick_next_message, message_set_filter_audio.
  intros E. unfold bind at 1. unfold bind at 1. unfold get_db, ret at 1.
  rewrite E. destruct (decide _) as [Hlen|_]; [discriminate|].
  destruct (decide (selection_method self = "RND")) as [Hr|Hr].
  - destruct (random_first (from_db <$> r :: rs) w)
      as (x & w' & Hx & Hin & Hdb); [discriminate|].
    apply list_elem_of_fmap in Hin as (m & -> & Hm).
    exists m, w'. split; [exact Hx|]. split; [exact Hm|].
    split; [exact Hdb|]. intros; contradiction.
  - unfold bind, ret.
    destruct (sorted (from_db <$> r :: rs) generation) as [|x s] eqn:Es.
    { apply sorted_nil_inv in Es. discriminate. }
    assert (x ∈ from_db <$> r :: rs) as Hin.
    { rewrite <- (sorted_perm generation (from_db <$> r :: rs)).
      rewrite Es. left. }
    apply list_elem_of_fmap in Hin as (m & -> & Hm).
    exists m, w. split; [reflexivity|]. split; [exact Hm|].
    split; [reflexivity|]. intros _. by split.
Qed.

End PickNextMessage.

(** C9: [pick_next_message] only returns a message of the chain whose
    audio is empty; it raises [Message.DoesNotExist], and nothing else,
    exactly when no message of the chain has empty audio, whatever messages
    with audio the chain holds; the store is the same after the call. *)
Theorem pick_next_message_unrecorded (self : Chain) (w : World) :
  match fst (Chain.pick_next_message self w) with
  | Return m =>
      (exists r, m = from_db r /\ available self (db w) r)
      /\ chain_id m = Some (chain_pk self) /\ audio m = ""
  | Raise e => exists msg, e = Message_DoesNotExist msg
  end
  /\ ((exists msg,
          fst (Chain.pick_next_message self w)
          = Raise (Message_DoesNotExist msg))
      <-> (forall r, r ∈ messages (db w) -> row_chain r = chain_pk self ->
                     row_audio r <> ""))
  /\ db (snd (Chain.pick_next_message self w)) = db w.
Proof.
  destruct (unrecorded_rows self (db w)) as [|r rs] eqn:E.
  - destruct (pick_next_message_none self w E) as [msg Hpick].
    rewrite Hpick. simpl. split; [by eexists|]. split; [|reflexivity].
    split; [|by eexists].
    intros _ r Hr Hc Ha.
    assert (r ∈ unrecorded_rows self (db w)) as Hin
      by (by apply unrecorded_available).
    rewrite E in Hin. inversion Hin.
  - destruct (pick_next_message_some self w r rs E)
      as (m & w' & Hpick & Hin & Hdb & _).
    rewrite Hpick. simpl.
    rewrite <- E in Hin. apply unrecorded_available in Hin.
    split; [|split; [|exact Hdb]].
    + split; [by exists m|]. destruct Hin as (_ & -> & ->). by split.
    + split; [intros [msg Hmsg]; discriminate|].
      intros Hall. exfalso. destruct Hin as (H1 & H2 & H3).
      by apply (Hall m).
Qed.

(** C7: the sequential policies do not depend on the database's draws:
    on the same store, a game in 'SEQ' order gives the same chain, and a
    chain with method 'YNG' gives the same message, whatever the draws. *)
Theorem sequential_policies_deterministic (g : Game) (receipts : list Z)
    (c : Chain) (w1 w2 : World) :
  db w1 = db w2 ->
  (chain_order g = "SEQ" ->
   fst (Game.pick_next_chain g receipts w1)
   = fst (Game.pick_next_chain g receipts w2))
  /\ (selection_method c = "YNG" ->
      fst (Chain.pick_next_message c w1)
      = fst (Chain.pick_next_message c w2)).
Proof.
  intros Hdb. split.
  - intros Hseq.
    unfold Game.pick_next_chain, chain_set, bind, get_db, ret. simpl.
    rewrite Hdb. destruct (decide (length _ = O)); [reflexivity|].
    destruct (exclude_pk_in _ _); [reflexivity|].
    destruct (decide _) as [Hr|_]; [|reflexivity].
    rewrite Hseq in Hr. discriminate.
  - intros Hyng.
    unfold Chain.pick_next_message, message_set_filter_audio.
    unfold bind, get_db, ret. simpl.
    rewrite Hdb. destruct (decide (length _ = O)); [reflexivity|].
    destruct (decide _) as [Hr|_].
    + rewrite Hyng in Hr. discriminate.
    + by destruct (sorted _ _).
Qed.

Lemma sequential_policies_deterministic_witness :
  (fst (Game.pick_next_chain game_seq [1] world0)
   = fst (Game.pick_next_chain game_seq [1] world1))
  /\ (fst (Chain.pick_next_message chain_a world0)
      = fst (Chain.pick_next_message chain_a world1)).
Proof.
  destruct (sequential_policies_deterministic
              game_seq [1] chain_a world0 world1 eq_refl) as [H1 H2].
  split; [apply H1|apply H2]; reflexivity.
Defined.

(** ** Generations and lines of descent in a well-formed store *)

Lemma get_message_Some (d : DB) (k : Z) (p : MessageRow) :
  get_message d k = Some p -> p ∈ messages d /\ row_id p = k.
Proof.
  unfold get_message. intros H. apply find_some in H as [Hin Hk].
  split; [by apply list_elem_of_In|by apply Z.eqb_eq].
Qed.

Section Descent.

Variable d : DB.
Hypothesis Hok : store_ok d.

Lemma parent_step (r p : MessageRow) :
  r ∈ messages d ->
  row_parent r ≫= get_message d = Some p ->
  p ∈ messages d /\ row_chain p = row_chain r
  /\ row_generation r = (row_generation p + 1)%Z.
Proof.
  intros Hr Hp. pose proof (parents_above d Hok r Hr) as Hpa.
  destruct (row_parent r) as [k|]; simpl in Hp; [|discriminate].
  destruct Hpa as (p' & Hget & Hc & Hg).
  rewrite Hget in Hp. inversion Hp; subst.
  apply get_message_Some in Hget as [Hin _]. by repeat split.
Qed.

Lemma root_generation (r : MessageRow) :
  r ∈ messages d ->
  row_parent r ≫= get_message d = None ->
  row_generation r = 0%Z.
Proof.
  intros Hr Hp. pose proof (parents_above d Hok r Hr) as Hpa.
  destruct (row_parent r) as [k|]; simpl in Hp; [|exact Hpa].
  destruct Hpa as (p' & Hget & _). congruence.
Qed.

Lemma ancestors_length (n : nat) (r : MessageRow) :
  r ∈ messages d ->
  (Z.of_nat (length (ancestors d n r)) <= row_generation r)%Z.
Proof.
  revert r; induction n as [|n IH]; intros r Hr; simpl.
  - by apply (generations_from_zero d Hok).
  - destruct (row_parent r ≫= get_message d) as [p|] eqn:Hp; simpl.
    + destruct (parent_step r p Hr Hp) as (Hin & _ & Hg).
      specialize (IH p Hin). lia.
    + by apply (generations_from_zero d Hok).
Qed.

(** Below a message there is a message at every smaller generation. *)
Lemma generation_levels (n : nat) :
  forall r, r ∈ messages d -> row_generation r = Z.of_nat n ->
  forall k, (k <= n)%nat ->
  exists a, a ∈ messages d /\ row_generation a = Z.of_nat k.
Proof.
  induction n as [|n IH]; intros r Hr Hg k Hk.
  - assert (k = O) as -> by lia. by exists r.
  - destruct (decide (k = S n)) as [->|Hne]; [by exists r|].
    destruct (row_parent r ≫= get_message d) as [p|] eqn:Hp.
    + destruct (parent_step r p Hr Hp) as (Hin & _ & Hgp).
      apply (IH p Hin); lia.
    + pose proof (root_generation r Hr Hp). lia.
Qed.

Lemma generation_bound (r : MessageRow) :
  r ∈ messages d ->
  (row_generation r < Z.of_nat (length (messages d)))%Z.
Proof.
  intros Hr. pose proof (generations_from_zero d Hok r Hr) as H0.
  set (n := Z.to_nat (row_generation r)).
  assert (row_generation r = Z.of_nat n) as Hn by lia.
  assert (length (Z.of_nat <$> seq 0 (S n))
          <= length (row_generation <$> messages d))%nat as Hlen.
  { apply NoDup_incl_length.
    - apply NoDup_ListNoDup, NoDup_fmap_2; [apply _|].
      apply NoDup_ListNoDup, seq_NoDup.
    - intros z Hz. apply list_elem_of_In in Hz.
      apply list_elem_of_fmap in Hz as (k & -> & Hk).
      apply list_elem_of_In, in_seq in Hk.
      destruct (generation_levels n r Hr Hn k) as (a & Ha & Hga); [lia|].
      apply list_elem_of_In. rewrite <- Hga. by apply list_elem_of_fmap_2. }
  rewrite !length_fmap, length_seq in Hlen. lia.
Qed.

Lemma count_done_le (l : list MessageRow) : (count_done l <= length l)%nat.
Proof. apply length_filter. Qed.

Lemma count_done_cons (b : MessageRow) (l : list MessageRow) :
  count_done (b :: l)
  = if decide (row_audio b = "") then count_done l else S (count_done l).
Proof.
  unfold count_done. rewrite filter_cons.
  destruct (decide (row_audio b <> "")) as [Ha|Ha];
    destruct (decide (row_audio b = "")) as [Hb|Hb];
    try reflexivity; contradiction.
Qed.

Variable self : Chain.
Variable g : Z.
Hypothesis g_least :
  forall r, available self d r -> (g <= row_generation r)%Z.

(** Counting a message with the line above it: either every entry of the
    line is a recording, or the line passes through an unrecorded message,
    which is a candidate itself. *)
Lemma line_count (n : nat) :
  forall b, b ∈ messages d -> row_chain b = chain_pk self ->
  (row_generation b <= Z.of_nat n)%Z ->
  Z.of_nat (count_done (b :: ancestors d n b)) = (row_generation b + 1)%Z
  \/ (g <= Z.of_nat (count_done (b :: ancestors d n b)))%Z.
Proof.
  induction n as [|n IH]; intros b Hb Hc Hg.
  - pose proof (generations_from_zero d Hok b Hb) as H0.
    rewrite count_done_cons. simpl.
    destruct (decide (row_audio b = "")) as [Ha|Ha]; [right|left];
      unfold count_done; simpl; [|lia].
    assert (g <= row_generation b)%Z by (by apply g_least). lia.
  - rewrite count_done_cons. simpl.
    destruct (row_parent b ≫= get_message d) as [p|] eqn:Hp.
    + destruct (parent_step b p Hb Hp) as (Hin & Hcp & Hgp).
      destruct (decide (row_audio b = "")) as [Ha|Ha];
        (destruct (IH p Hin) as [IHp|IHp]; [congruence|lia|..]).
      * right.
        assert (g <= row_generation b)%Z by (by apply g_least). lia.
      * right. lia.
      * left. lia.
      * right. lia.
    + pose proof (root_generation b Hb Hp) as H0.
      destruct (decide (row_audio b = "")) as [Ha|Ha]; [right|left];
        unfold count_done; simpl; [|lia].
      assert (g <= row_generation b)%Z by (by apply g_least). lia.
Qed.

Lemma completed_entries_le_generation (r : MessageRow) :
  r ∈ messages d ->
  (Z.of_nat (completed_entries d r) <= row_generation r)%Z.
Proof.
  intros Hr. unfold completed_entries.
  pose proof (ancestors_length (length (messages d)) r Hr) as Hl.
  pose proof (count_done_le (ancestors d (length (messages d)) r)) as Hc.
  lia.
Qed.

Lemma completed_entries_bound (b : MessageRow) :
  available self d b -> (g <= Z.of_nat (completed_entries d b))%Z.
Proof.
  intros (Hb & Hc & Ha).
  pose proof (generation_bound b Hb) as Hlt.
  pose proof (completed_entries_le_generation b Hb) as Hle.
  destruct (line_count (length (messages d)) b Hb Hc) as [H|H]; [lia|..];
    rewrite count_done_cons in H;
    destruct (decide (row_audio b = "")) as [_|Hn]; try contradiction;
    fold (completed_entries d b) in H; lia.
Qed.

End Descent.

(** C3: under the default method 'YNG' the message served is the
    unrecorded message of the chain at the smallest generation, and in a
    well-formed store that is the candidate with the fewest completed
    entries before it. *)
Theorem pick_next_message_shortest_first (self : Chain) (w : World) :
  selection_method self = "YNG" ->
  (exists r, available self (db w) r) ->
  exists r,
    Chain.pick_next_message self w = (Return (from_db r), w)
    /\ available self (db w) r
    /\ (forall r', available self (db w) r' ->
                   (row_generation r <= row_generation r')%Z)
    /\ (store_ok (db w) ->
        forall r', available self (db w) r' ->
                   (completed_entries (db w) r
                    <= completed_entries (db w) r')%nat).
Proof.
  intros Hyng [r0 Hr0]. apply unrecorded_available in Hr0.
  destruct (unrecorded_rows self (db w)) as [|r rs] eqn:E; [inversion Hr0|].
  destruct (pick_next_message_some self w r rs E)
    as (m & w' & Hpick & Hin & _ & Hfirst).
  destruct Hfirst as [-> Hhd]; [rewrite Hyng; discriminate|].
  assert (forall r', available self (db w) r' ->
                     (row_generation m <= row_generation r')%Z) as Hleast.
  { intros r' Hr'. apply unrecorded_available in Hr'. rewrite E in Hr'.
    destruct (sorted (from_db <$> r :: rs) generation) as [|x s] eqn:Es;
      [discriminate|].
    inversion Hhd; subst x.
    apply (sorted_head_least generation _ _ _ Es (from_db r')).
    by apply list_elem_of_fmap_2. }
  assert (available self (db w) m) as Hm.
  { apply unrecorded_available. by rewrite E. }
  exists m. split; [exact Hpick|]. split; [exact Hm|].
  split; [exact Hleast|].
  intros Hok r' Hr'.
  pose proof (completed_entries_bound (db w) Hok self (row_generation m)
                Hleast r' Hr') as Hb.
  destruct Hm as (Hm & _).
  pose proof (completed_entries_le_generation (db w) Hok m Hm). lia.
Qed.

Lemma store0_ok : store_ok store0.
Proof.
  split.
  - apply (bool_decide_unpack _). by vm_compute.
  - intros r Hr. repeat (apply elem_of_cons in Hr as [->|Hr]);
      [by eexists ..|inversion Hr].
  - intros r Hr. repeat (apply elem_of_cons in Hr as [->|Hr]);
      [by vm_compute ..|inversion Hr].
  - intros r Hr. repeat (apply elem_of_cons in Hr as [->|Hr]);
      [reflexivity| | |inversion Hr]; simpl.
    + by exists row_seed.
    + by exists row_first.
Qed.

Lemma pick_next_message_shortest_first_witness :
  exists r,
    Chain.pick_next_message chain_a world0 = (Return (from_db r), world0)
    /\ available chain_a (db world0) r
    /\ (forall r', available chain_a (db world0) r' ->
                   (row_generation r <= row_generation r')%Z)
    /\ (forall r', available chain_a (db world0) r' ->
                   (completed_entries (db world0) r
                    <= completed_entries (db world0) r')%nat).
Proof.
  destruct (pick_next_message_shortest_first chain_a world0)
    as (r & H1 & H2 & H3 & H4).
  - reflexivity.
  - exists row_first. split; [right; left|]. by split.
  - exists r. split; [exact H1|]. split; [exact H2|]. split; [exact H3|].
    apply H4. exact store0_ok.
Defined.

(** ** Message.full_clean *)

Lemma parent_reads (self : Message) (w : World) :
  snd (Message.parent self w) = w.
Proof.
  unfold Message.parent. destruct (parent_obj self); [reflexivity|].
  destruct (parent_id self); [|reflexivity].
  unfold bind, get_db, ret, raise. by destruct (get_message _ _).
Qed.

Lemma Model_full_clean_reads (self : Message) (w : World) :
  snd (Message.Model_full_clean self w) = w.
Proof.
  unfold Message.Model_full_clean, bind, get_db, ret, raise.
  by destruct (Message.field_errors _ _).
Qed.

Lemma full_clean_reads (self : Message) (w : World) :
  snd (Message.full_clean self w) = w.
Proof.
  unfold Message.full_clean.
  pose proof (parent_reads self w) as Hp.
  destruct (Message.parent self w) as [[p|e] w1]; simpl in Hp; subst w1;
    [|reflexivity].
  match goal with
  | |- context [Message.Model_full_clean ?m w] =>
      pose proof (Model_full_clean_reads m w) as Hc;
      destruct (Message.Model_full_clean m w) as [r w2]
  end.
  exact Hc.
Qed.

(** C1: [full_clean] sets the generation of an entry to its parent's
    generation plus one whenever it has a parent, leaves it as it is when
    it has none, and so a new entry without parent keeps the default 0. *)
Theorem full_clean_generation (self : Message) (c : Chain) (w : World) :
  match fst (Message.parent self w) with
  | Return (Some p) =>
      generation (snd (fst (Message.full_clean self w)))
      = (generation p + 1)%Z
  | Return None =>
      snd (fst (Message.full_clean self w)) = self
  | Raise e =>
      Message.full_clean self w = (Raise e, self, w)
  end
  /\ generation (Message.init c None) = 0%Z
  /\ generation (snd (fst (Message.full_clean (Message.init c None) w)))
     = 0%Z.
Proof.
  split; [|split; [reflexivity|]].
  - unfold Message.full_clean.
    pose proof (parent_reads self w) as Hp.
    destruct (Message.parent self w) as [[[p|]|e] w1]; simpl in *; subst w1.
    + by destruct (Message.Model_full_clean _ _).
    + by destruct (Message.Model_full_clean _ _).
    + reflexivity.
  - unfold Message.full_clean, Message.parent. simpl.
    unfold ret. by destruct (Message.Model_full_clean _ _).
Qed.

(** ** Message.save and Message.replicate *)

Lemma get_chain_Some (d : DB) (k : Z) (c : Chain) :
  get_chain d k = Some c -> c ∈ chains d /\ chain_pk c = k.
Proof.
  unfold get_chain. intros H. apply find_some in H as [Hin Hk].
  split; [by apply list_elem_of_In|by apply Z.eqb_eq].
Qed.

Lemma fresh_pk_above (rows : list MessageRow) (r : MessageRow) :
  r ∈ rows -> (row_id r < fresh_pk rows)%Z.
Proof.
  unfold fresh_pk. induction rows as [|x rows IH]; intros Hr;
    [inversion Hr|].
  rewrite fmap_cons. cbn [foldr].
  apply elem_of_cons in Hr as [->|Hr]; [lia|].
  specialize (IH Hr). lia.
Qed.

Lemma get_message_fresh (d : DB) :
  get_message d (fresh_pk (messages d)) = None.
Proof.
  destruct (get_message d (fresh_pk (messages d))) as [p|] eqn:E;
    [|reflexivity].
  apply get_message_Some in E as [Hin Hid].
  apply fresh_pk_above in Hin. lia.
Qed.

Lemma create_returns (c : Chain) (p : option Message) (w : World) :
  is_Some (get_chain (db w) (chain_pk c)) ->
  match p with
  | None => True
  | Some m => exists k, pk m = Some k /\ is_Some (get_message (db w) k)
  end ->
  let k' := fresh_pk (messages (db w)) in
  create c p w
  = (Return (child_of c p k'),
     set_messages
       (messages (db w) ++ [to_row k' (chain_pk c) (child_of c p k')]) w).
Proof.
  intros [c' Hc] Hp.
  unfold create, invoke, bind, Message.full_clean, Message.parent.
  destruct p as [m|]; simpl.
  - destruct Hp as (k & Hk & [r Hr]).
    unfold Message.Model_full_clean, bind, get_db, Message.field_errors.
    simpl. rewrite Hc, Hk. simpl. rewrite Hr. simpl.
    unfold Message.save, Message.unsaved_parent. simpl. rewrite Hk. reflexivity.
  - unfold Message.Model_full_clean, bind, get_db, Message.field_errors.
    simpl. rewrite Hc. reflexivity.
Qed.

Lemma replicate_create (m : Message) (w : World) (cid : Z) (c : Chain) :
  chain_id m = Some cid -> get_chain (db w) cid = Some c ->
  Message.replicate m w = create c (Some m) w.
Proof.
  intros Hcid Hc. unfold Message.replicate, create, Message.chain.
  rewrite Hcid. unfold bind at 1. unfold bind at 1. unfold get_db.
  rewrite Hc. reflexivity.
Qed.

(** C5: for a stored message [m] whose chain exists, [m.replicate()]
    returns a message that was not in the table before, that is in it
    afterwards, whose chain is [m]'s chain, whose parent is [m], and whose
    generation is [m]'s generation plus one. *)
Theorem replicate_child (m : Message) (w : World) (k cid : Z) (c : Chain) :
  pk m = Some k -> is_Some (get_message (db w) k) ->
  chain_id m = Some cid -> get_chain (db w) cid = Some c ->
  exists child w' k',
    Message.replicate m w = (Return child, w')
    /\ chain_id child = chain_id m
    /\ parent_id child = pk m /\ parent_obj child = Some m
    /\ generation child = (generation m + 1)%Z
    /\ pk child = Some k'
    /\ get_message (db w) k' = None
    /\ messages (db w') = (messages (db w) ++ [to_row k' cid child])%list
    /\ games (db w') = games (db w) /\ chains (db w') = chains (db w).
Proof.
  intros Hk Hsaved Hcid Hc.
  pose proof (get_chain_Some _ _ _ Hc) as [_ Hpk].
  rewrite (replicate_create m w cid c Hcid Hc).
  rewrite create_returns.
  - eexists _, _, (fresh_pk (messages (db w))). split; [reflexivity|].
    simpl. rewrite Hpk, Hcid, Hk. repeat split.
    apply get_message_fresh.
  - rewrite Hpk, Hc. by eexists.
  - by exists k.
Qed.

Lemma replicate_child_witness :
  exists child w' k',
    Message.replicate (from_db row_first) world0 = (Return child, w')
    /\ chain_id child = chain_id (from_db row_first)
    /\ parent_id child = pk (from_db row_first)
    /\ parent_obj child = Some (from_db row_first)
    /\ generation child = (generation (from_db row_first) + 1)%Z
    /\ pk child = Some k'
    /\ get_message (db world0) k' = None
    /\ messages (db w')
       = (messages (db world0) ++ [to_row k' 1 child])%list
    /\ games (db w') = games (db world0)
    /\ chains (db w') = chains (db world0).
Proof.
  apply (replicate_child (from_db row_first) world0 2 1 chain_a).
  - reflexivity.
  - by eexists.
  - reflexivity.
  - reflexivity.
Defined.

(** ** The message table under insertion *)

Lemma find_app_first {A} (f : A -> bool) (l l' : list A) (x : A) :
  find f l = Some x -> find f (l ++ l') = Some x.
Proof.
  induction l as [|y l IH]; simpl; [discriminate|].
  destruct (f y); [done|exact IH].
Qed.

Lemma get_message_stored (d : DB) (r : MessageRow) :
  NoDup (row_id <$> messages d) -> r ∈ messages d ->
  get_message d (row_id r) = Some r.
Proof.
  unfold get_message. induction (messages d) as [|x l IH]; intros Hnd Hr;
    [inversion Hr|].
  rewrite fmap_cons in Hnd. apply NoDup_cons in Hnd as [Hx Hnd]. simpl.
  destruct (row_id x =? row_id r)%Z eqn:E.
  - apply Z.eqb_eq in E. apply elem_of_cons in Hr as [->|Hr]; [done|].
    exfalso. apply Hx. rewrite E. by apply list_elem_of_fmap_2.
  - apply elem_of_cons in Hr as [->|Hr]; [|by apply IH].
    rewrite Z.eqb_refl in E. discriminate.
Qed.

Lemma get_message_with_row (d : DB) (x p : MessageRow) (k : Z) :
  get_message d k = Some p -> get_message (with_row d x) k = Some p.
Proof. unfold get_message, with_row. simpl. apply find_app_first. Qed.

Lemma store_ok_insert (d : DB) (x : MessageRow) :
  store_ok d ->
  row_id x = fresh_pk (messages d) ->
  is_Some (get_chain d (row_chain x)) ->
  match row_parent x with
  | None => row_generation x = 0%Z
  | Some k =>
      exists p, get_message d k = Some p
                /\ row_chain p = row_chain x
                /\ row_generation x = (row_generation p + 1)%Z
  end ->
  store_ok (with_row d x).
Proof.
  intros Hok Hid Hchain Hparent. split; simpl.
  - rewrite fmap_app. apply NoDup_app. split; [apply (ids_unique d Hok)|].
    split; [|apply NoDup_singleton].
    intros k Hk Hk'. apply list_elem_of_singleton in Hk'. subst k.
    apply list_elem_of_fmap in Hk as (r & Hr & Hin).
    apply fresh_pk_above in Hin. lia.
  - intros r Hr. apply elem_of_app in Hr as [Hr|Hr].
    + apply (chains_exist d Hok r Hr).
    + apply list_elem_of_singleton in Hr. by subst r.
  - intros r Hr. apply elem_of_app in Hr as [Hr|Hr].
    + apply (generations_from_zero d Hok r Hr).
    + apply list_elem_of_singleton in Hr. subst r.
      destruct (row_parent x); [|lia].
      destruct Hparent as (p & Hp & _ & Hg).
      apply get_message_Some in Hp as [Hp _].
      pose proof (generations_from_zero d Hok p Hp). lia.
  - intros r Hr. apply elem_of_app in Hr as [Hr|Hr].
    + pose proof (parents_above d Hok r Hr) as Hpa.
      destruct (row_parent r); [|exact Hpa].
      destruct Hpa as (p & Hp & Hrest). exists p.
      split; [by apply get_message_with_row|exact Hrest].
    + apply list_elem_of_singleton in Hr. subst r.
      destruct (row_parent x); [|exact Hparent].
      destruct Hparent as (p & Hp & Hrest). exists p.
      split; [by apply get_message_with_row|exact Hrest].
Qed.

Lemma single_root_insert (d : DB) (x : MessageRow) :
  single_root d -> is_Some (row_parent x) -> single_root (with_row d x).
Proof.
  intros Hs [k Hk] r r' Hr Hr' Hc Hp Hp'. simpl in Hr, Hr'.
  apply elem_of_app in Hr as [Hr|Hr];
    [|apply list_elem_of_singleton in Hr; congruence].
  apply elem_of_app in Hr' as [Hr'|Hr'];
    [|apply list_elem_of_singleton in Hr'; congruence].
  by apply Hs.
Qed.

Lemma replicate_stored (w : World) (r : MessageRow) :
  store_ok (db w) -> r ∈ messages (db w) ->
  exists child x,
    Message.replicate (from_db r) w
    = (Return child, set_messages (messages (db w) ++ [x]) w)
    /\ row_parent x = Some (row_id r)
    /\ store_ok (with_row (db w) x).
Proof.
  intros Hok Hr.
  destruct (chains_exist _ Hok r Hr) as [c Hc].
  pose proof (get_chain_Some _ _ _ Hc) as [_ Hpk].
  pose proof (get_message_stored _ r (ids_unique _ Hok) Hr) as Hget.
  rewrite (replicate_create (from_db r) w (row_chain r) c eq_refl Hc).
  rewrite create_returns.
  - eexists _, _. split; [reflexivity|]. split; [reflexivity|].
    apply store_ok_insert; simpl; try done.
    + rewrite Hpk, Hc. by eexists.
    + exists r. by rewrite Hpk.
  - rewrite Hpk, Hc. by eexists.
  - exists (row_id r). split; [reflexivity|]. rewrite Hget. by eexists.
Qed.

Lemma create_root (w : World) (c : Chain) :
  store_ok (db w) -> is_Some (get_chain (db w) (chain_pk c)) ->
  exists child x,
    create c None w
    = (Return child, set_messages (messages (db w) ++ [x]) w)
    /\ store_ok (with_row (db w) x).
Proof.
  intros Hok Hc. rewrite create_returns; [|exact Hc|exact I].
  eexists _, _. split; [reflexivity|].
  apply store_ok_insert; simpl; done.
Qed.

(** ** The shape of a chain *)

Ltac each_row H :=
  repeat (apply elem_of_cons in H as [->|H]); [..|by inversion H].

Lemma store0_linear : linear store0.
Proof.
  intros r Hr. split; [|split].
  - intros Hp r' Hr' Hc Hp'. each_row Hr; each_row Hr'; done.
  - intros k Hk. each_row Hr; simplify_eq/=.
    + by exists row_seed.
    + by exists row_first.
  - intros r' Hr' Hc Hs Hp. each_row Hr; each_row Hr'; done.
Qed.

(** C6, as stated, fails: from a store whose chains are linear,
    replicating an entry that already has a child gives that entry two
    children, and creating an entry without parent in a chain that has its
    first entry gives the chain two entries without parent. *)
Lemma linear_not_preserved :
  linear (db world0)
  /\ (exists child w',
        Message.replicate (from_db row_seed) world0 = (Return child, w')
        /\ messages (db w')
           = [row_seed; row_first; row_second;
              Build_MessageRow 4 1 "" (Some 1%Z) 1 ""]
        /\ ~ linear (db w'))
  /\ (exists child w',
        create chain_a None world0 = (Return child, w')
        /\ messages (db w')
           = [row_seed; row_first; row_second;
              Build_MessageRow 4 1 "" None 0 ""]
        /\ ~ linear (db w')).
Proof.
  split; [exact store0_linear|]. split.
  - eexists _, _. split; [lazy; reflexivity|]. split; [reflexivity|].
    intros H.
    destruct (H row_first) as (_ & _ & H3); [right; left|].
    specialize (H3 (Build_MessageRow 4 1 "" (Some 1%Z) 1 "")).
    assert (Build_MessageRow 4 1 "" (Some 1%Z) 1 "" = row_first) as E;
      [|discriminate E].
    apply H3; [do 3 right; left|reflexivity|by eexists|reflexivity].
  - eexists _, _. split; [lazy; reflexivity|]. split; [reflexivity|].
    intros H.
    destruct (H row_seed) as (H1 & _); [left|].
    specialize (H1 eq_refl (Build_MessageRow 4 1 "" None 0 "")).
    assert (Build_MessageRow 4 1 "" None 0 "" = row_seed) as E;
      [|discriminate E].
    apply H1; [do 3 right; left|reflexivity|reflexivity].
Qed.

(** C6, amended: in a well-formed store every entry with a parent has it
    in its own chain, one generation above, and an entry without parent is
    at generation 0.  Cleaning an entry leaves the store as it is;
    replicating a stored entry keeps the store well formed and adds no
    entry without parent; creating an entry without parent in a chain that
    exists keeps the store well formed. *)
Theorem tree_preserved (w : World) :
  store_ok (db w) ->
  (forall m, db (snd (Message.full_clean m w)) = db w)
  /\ (forall r, r ∈ messages (db w) ->
        exists child w',
          Message.replicate (from_db r) w = (Return child, w')
          /\ store_ok (db w')
          /\ (single_root (db w) -> single_root (db w')))
  /\ (forall c, is_Some (get_chain (db w) (chain_pk c)) ->
        exists child w',
          create c None w = (Return child, w') /\ store_ok (db w')).
Proof.
  intros Hok. split; [|split].
  - intros m. by rewrite full_clean_reads.
  - intros r Hr.
    destruct (replicate_stored w r Hok Hr) as (child & x & Hrep & Hp & Hx).
    eexists _, _. split; [exact Hrep|]. split; [exact Hx|].
    intros Hs. apply (single_root_insert (db w) x Hs). rewrite Hp. by eexists.
  - intros c Hc.
    destruct (create_root w c Hok Hc) as (child & x & Hcr & Hx).
    eexists _, _. split; [exact Hcr|exact Hx].
Qed.

Lemma tree_preserved_witness :
  (forall m, db (snd (Message.full_clean m world0)) = db world0)
  /\ (forall r, r ∈ messages (db world0) ->
        exists child w',
          Message.replicate (from_db r) world0 = (Return child, w')
          /\ store_ok (db w')
          /\ (single_root (db world0) -> single_root (db w')))
  /\ (forall c, is_Some (get_chain (db world0) (chain_pk c)) ->
        exists child w',
          create c None world0 = (Return child, w') /\ store_ok (db w')).
Proof. apply (tree_preserved world0). exact store0_ok. Defined.

(** ** Message.to_dict *)

Section ToDict.

Variable reverse : string -> option Z -> Outcome string.
Variable url : string -> string.

(** C10: when the routes resolve and the parent, if any, can be fetched,
    [to_dict] returns a dictionary that holds 'close_url' and 'upload_url'
    exactly when the message has no audio, that always holds 'pk',
    'generation', 'audio', 'parent' and 'sprout_url', whose 'audio' is the
    file's URL when there is audio and [None] otherwise, and whose 'parent'
    is the parent's id, or [None] without parent. *)
Theorem to_dict_keys (self : Message) (w : World) (p : option Message)
    (sprout close upload : string) :
  Message.parent self w = (Return p, w) ->
  reverse "sprout" (pk self) = Return sprout ->
  (audio self = "" ->
   reverse "close" (pk self) = Return close
   /\ reverse "upload" (pk self) = Return upload) ->
  exists d : gmap string Value,
    Message.to_dict reverse url self w = (Return d, w)
    /\ (is_Some (d !! "close_url") <-> audio self = "")
    /\ (is_Some (d !! "upload_url") <-> audio self = "")
    /\ d !! "pk" = Some (of_pk (pk self))
    /\ d !! "generation" = Some (VInt (generation self))
    /\ d !! "audio"
       = Some (if decide (audio self = "") then VNone
               else VStr (url (audio self)))
    /\ d !! "parent"
       = Some (match p with Some q => of_pk (pk q) | None => VNone end)
    /\ d !! "sprout_url" = Some (VStr sprout).
Proof.
  intros Hp Hs Hcu.
  unfold Message.to_dict, bind, Message.reverse_orm. rewrite Hp, Hs.
  destruct (decide (audio self = "")) as [Ha|Ha].
  - destruct (Hcu Ha) as [-> ->]. eexists. split; [reflexivity|].
    repeat split; intros; try done; by simplify_map_eq.
  - eexists. split; [reflexivity|].
    repeat split; intros; try done; by simplify_map_eq.
Qed.

End ToDict.

Lemma to_dict_keys_witness :
  exists d : gmap string Value,
    Message.to_dict reverse0 url0 (from_db row_first) world0 = (Return d, world0)
    /\ (is_Some (d !! "close_url") <-> audio (from_db row_first) = "")
    /\ (is_Some (d !! "upload_url") <-> audio (from_db row_first) = "")
    /\ d !! "pk" = Some (of_pk (pk (from_db row_first)))
    /\ d !! "generation" = Some (VInt (generation (from_db row_first)))
    /\ d !! "audio"
       = Some (if decide (audio (from_db row_first) = "") then VNone
               else VStr (url0 (audio (from_db row_first))))
    /\ d !! "parent" = Some (of_pk (pk (from_db row_seed)))
    /\ d !! "sprout_url" = Some (VStr "/pk/sprout").
Proof.
  apply (to_dict_keys reverse0 url0 (from_db row_first) world0
           (Some (from_db row_seed)) "/pk/sprout" "/pk/close" "/pk/upload").
  - reflexivity.
  - reflexivity.
  - intros _. split; reflexivity.
Defined.

(** * Further properties of the models *)

(** ** Message.save *)

Lemma find_app_second {A} (f : A -> bool) (l l' : list A) :
  find f l = None -> find f (l ++ l') = find f l'.
Proof.
  induction l as [|y l IH]; simpl; [done|].
  destruct (f y); [discriminate|exact IH].
Qed.

Lemma update_row_cons (r y : MessageRow) (rows : list MessageRow) :
  update_row r (y :: rows)
  = (if (row_id y =? row_id r)%Z then r else y) :: update_row r rows.
Proof. reflexivity. Qed.

Lemma find_update_row (r : MessageRow) (rows : list MessageRow) :
  is_Some (find (fun x => (row_id x =? row_id r)%Z) rows) ->
  find (fun x => (row_id x =? row_id r)%Z) (update_row r rows) = Some r.
Proof.
  induction rows as [|y rows IH]; intros H.
  - destruct H as [x Hx]. discriminate.
  - rewrite update_row_cons. simpl in *.
    destruct (row_id y =? row_id r)%Z eqn:E.
    + by rewrite Z.eqb_refl.
    + rewrite E. by apply IH.
Qed.

Lemma update_row_absent (r : MessageRow) (rows : list MessageRow) :
  find (fun x => (row_id x =? row_id r)%Z) rows = None ->
  update_row r rows = rows.
Proof.
  induction rows as [|y rows IH]; intros H; [done|].
  rewrite update_row_cons. simpl in H.
  destruct (row_id y =? row_id r)%Z; [discriminate|]. by rewrite IH.
Qed.

Lemma update_row_twice (r : MessageRow) (rows : list MessageRow) :
  update_row r (update_row r rows) = update_row r rows.
Proof.
  induction rows as [|y rows IH]; [done|].
  rewrite !update_row_cons, IH. f_equal.
  destruct (row_id y =? row_id r)%Z eqn:E;
    [by rewrite Z.eqb_refl|by rewrite E].
Qed.

Lemma update_row_app (r : MessageRow) (l l' : list MessageRow) :
  update_row r (l ++ l') = (update_row r l ++ update_row r l')%list.
Proof. unfold update_row. apply fmap_app. Qed.

(** What [save] does, path by path. *)
Lemma save_cases (self : Message) (w : World) :
  (Message.unsaved_parent self = true
   /\ exists msg, Message.save self w = (Raise (ValueError msg), self, w))
  \/ (Message.unsaved_parent self = false /\ chain_id self = None
      /\ exists msg,
           Message.save self w = (Raise (IntegrityError msg), self, w))
  \/ (exists c k r,
        Message.unsaved_parent self = false /\ chain_id self = Some c
        /\ r = to_row k c self
        /\ ((pk self = None /\ k = fresh_pk (messages (db w))
             /\ Message.save self w
                = (Return tt, set_pk k self,
                   set_messages (messages (db w) ++ [r]) w))
            \/ (pk self = Some k /\ get_message (db w) k = None
                /\ Message.save self w
                   = (Return tt, self,
                      set_messages (messages (db w) ++ [r]) w))
            \/ (pk self = Some k /\ is_Some (get_message (db w) k)
                /\ Message.save self w
                   = (Return tt, self,
                      set_messages (update_row r (messages (db w))) w)))).
Proof.
  unfold Message.save.
  destruct (Message.unsaved_parent self) eqn:Hu.
  { left. split; [done|]. by eexists. }
  right. destruct (chain_id self) as [c|] eqn:Hc.
  2:{ left. split; [done|]. split; [done|]. by eexists. }
  right. destruct (pk self) as [k|] eqn:Hk.
  - destruct (get_message (db w) k) as [x|] eqn:Hg.
    + exists c, k, (to_row k c self). repeat split. right. right.
      repeat split. by eexists.
    + exists c, k, (to_row k c self). repeat split. right. left. done.
  - exists c, (fresh_pk (messages (db w))), (to_row (fresh_pk (messages (db w))) c self).
    repeat split. left. done.
Qed.

(** X1: when [save] returns, the instance holds a key and the row read
    back under that key is the instance (without the parent object it
    remembers); when it raises, neither the instance nor the store has
    changed. *)
Theorem save_reload (self : Message) (w : World) :
  match Message.save self w with
  | (Return _, self', w') =>
      exists k, pk self' = Some k
                /\ from_db <$> get_message (db w') k = Some (drop_cache self')
  | (Raise _, self', w') => self' = self /\ w' = w
  end.
Proof.
  destruct (save_cases self w)
    as [(_ & msg & ->)|[(_ & _ & msg & ->)|(c & k & r & Hu & Hc & -> & H)]];
    [done|done|].
  assert (from_db (to_row k c self) = drop_cache (set_pk k self)) as Hrow.
  { unfold from_db, drop_cache, to_row. simpl. by rewrite Hc. }
  destruct H as [(Hk & -> & ->)|[(Hk & Hg & ->)|(Hk & Hg & ->)]].
  - eexists. split; [reflexivity|]. unfold get_message at 1. simpl.
    rewrite find_app_second by apply get_message_fresh.
    simpl. rewrite Z.eqb_refl. simpl. by rewrite Hrow.
  - exists k. split; [exact Hk|]. unfold get_message at 1. simpl.
    rewrite find_app_second by exact Hg.
    simpl. rewrite Z.eqb_refl. simpl. rewrite Hrow.
    unfold drop_cache. simpl. by rewrite Hk.
  - exists k. split; [exact Hk|]. unfold get_message at 1. simpl.
    rewrite (find_update_row (to_row k c self)) by exact Hg.
    simpl. rewrite Hrow. unfold drop_cache. simpl. by rewrite Hk.
Qed.

(** X2: saving again what was just saved changes nothing: the second
    [save] returns the same instance and leaves the store as the first left
    it. *)
Theorem save_twice (self self' : Message) (w w' : World) :
  Message.save self w = (Return tt, self', w') ->
  Message.save self' w' = (Return tt, self', w').
Proof.
  intros Hs.
  destruct (save_cases self w)
    as [(_ & msg & E)|[(_ & _ & msg & E)|(c & k & r & Hu & Hc & -> & H)]];
    [congruence|congruence|].
  assert (forall rows, set_messages rows (set_messages rows w)
                       = set_messages rows w) as Hset by done.
  destruct H as [(Hk & -> & E)|[(Hk & Hg & E)|(Hk & Hg & E)]];
    rewrite E in Hs; inversion Hs; subst self' w'; clear Hs E.
  - unfold Message.save. simpl.
    replace (Message.unsaved_parent (set_pk _ self)) with false by done.
    rewrite Hc. unfold get_message. simpl.
    rewrite find_app_second by apply get_message_fresh.
    simpl. rewrite Z.eqb_refl.
    replace (to_row _ c (set_pk _ self))
      with (to_row (fresh_pk (messages (db w))) c self) by done.
    rewrite update_row_app, update_row_cons. simpl. rewrite Z.eqb_refl.
    rewrite update_row_absent by apply get_message_fresh.
    by rewrite Hset.
  - unfold Message.save. rewrite Hu, Hc, Hk. unfold get_message. simpl.
    rewrite find_app_second by exact Hg.
    simpl. rewrite Z.eqb_refl.
    rewrite update_row_app, update_row_cons. simpl. rewrite Z.eqb_refl.
    rewrite update_row_absent by exact Hg.
    by rewrite Hset.
  - unfold Message.save. rewrite Hu, Hc, Hk. unfold get_message. simpl.
    rewrite (find_update_row (to_row k c self)) by exact Hg.
    rewrite update_row_twice. by rewrite Hset.
Qed.

Lemma save_twice_witness :
  Message.save (set_pk 4 unsaved)
    (set_messages (messages store0 ++ [to_row 4 1 unsaved]) world0)
  = (Return tt, set_pk 4 unsaved,
     set_messages (messages store0 ++ [to_row 4 1 unsaved]) world0).
Proof. apply (save_twice unsaved _ world0). reflexivity. Defined.

(** ** Message.replicate *)

(** X3: [replicate] returns only for a saved message whose chain exists,
    and then adds one row to the message table; otherwise it raises
    [Chain.DoesNotExist] (no chain), a [ValidationError] on 'parent' (a
    key without row) or [ValueError] (never saved), and the world is as it
    was. *)
Theorem replicate_outcome (m : Message) (w : World) :
  match Message.replicate m w with
  | (Return child, w') =>
      (exists k, pk m = Some k /\ is_Some (get_message (db w) k))
      /\ (exists cid, chain_id m = Some cid
                      /\ is_Some (get_chain (db w) cid))
      /\ exists x, w' = set_messages (messages (db w) ++ [x]) w
                   /\ row_parent x = pk m
  | (Raise (Chain_DoesNotExist _), w') =>
      w' = w
      /\ (chain_id m = None
          \/ exists cid, chain_id m = Some cid /\ get_chain (db w) cid = None)
  | (Raise (ValidationError fields), w') =>
      w' = w /\ fields = ["parent"]
      /\ exists k, pk m = Some k /\ get_message (db w) k = None
  | (Raise (ValueError _), w') => w' = w /\ pk m = None
  | (Raise _, _) => False
  end.
Proof.
  destruct (chain_id m) as [cid|] eqn:Hcid.
  2:{ unfold Message.replicate, Message.chain. rewrite Hcid.
      unfold bind, raise. split; [done|by left]. }
  destruct (get_chain (db w) cid) as [c|] eqn:Hc.
  2:{ unfold Message.replicate, Message.chain. rewrite Hcid.
      unfold bind at 1. unfold bind at 1. unfold get_db. rewrite Hc.
      unfold raise. split; [done|]. right. by exists cid. }
  rewrite (replicate_create m w cid c Hcid Hc).
  pose proof (get_chain_Some _ _ _ Hc) as [_ Hpk].
  destruct (pk m) as [k|] eqn:Hk.
  - destruct (get_message (db w) k) as [r|] eqn:Hr.
    + rewrite create_returns.
      * split; [exists k; split; [done|by eexists]|].
        split; [exists cid; split; [done|by eexists]|].
        eexists. split; [reflexivity|]. simpl. by rewrite Hk.
      * rewrite Hpk, Hc. by eexists.
      * exists k. split; [done|]. rewrite Hr. by eexists.
    + unfold create, invoke, bind, Message.full_clean, Message.parent. simpl.
      unfold Message.Model_full_clean, bind, get_db, Message.field_errors.
      simpl. rewrite Hpk, Hc, Hk. simpl. rewrite Hr. simpl.
      split; [done|]. split; [done|]. by exists k.
  - unfold create, invoke, bind, Message.full_clean, Message.parent. simpl.
    unfold Message.Model_full_clean, bind, get_db, Message.field_errors.
    simpl. rewrite Hpk, Hc, Hk. simpl.
    unfold Message.save, Message.unsaved_parent. simpl. rewrite Hk. done.
Qed.

Lemma get_message_appended (w : World) (x : MessageRow) :
  get_message (db w) (row_id x) = None ->
  get_message (db (set_messages (messages (db w) ++ [x]) w)) (row_id x)
  = Some x.
Proof.
  intros H. unfold get_message. simpl. rewrite find_app_second by exact H.
  simpl. by rewrite Z.eqb_refl.
Qed.

(** One step down a line: the child is itself a saved message of the
    same chain, so it can be replicated in turn. *)
Lemma replicate_step (m : Message) (w : World) (k cid : Z) :
  pk m = Some k -> is_Some (get_message (db w) k) ->
  chain_id m = Some cid -> is_Some (get_chain (db w) cid) ->
  exists child w' k',
    Message.replicate m w = (Return child, w')
    /\ pk child = Some k' /\ is_Some (get_message (db w') k')
    /\ chain_id child = Some cid /\ is_Some (get_chain (db w') cid)
    /\ generation child = (generation m + 1)%Z
    /\ audio child = ""
    /\ length (messages (db w')) = S (length (messages (db w)))
    /\ row_chain <$> get_message (db w') k' = Some cid
    /\ row_audio <$> get_message (db w') k' = Some "".
Proof.
  intros Hk Hsaved Hcid [c Hc].
  pose proof (get_chain_Some _ _ _ Hc) as [_ Hpk].
  rewrite (replicate_create m w cid c Hcid Hc).
  rewrite create_returns;
    [|rewrite Hpk, Hc; by eexists|by exists k].
  set (k' := fresh_pk (messages (db w))).
  set (x := to_row k' (chain_pk c) (child_of c (Some m) k')).
  assert (get_message (db (set_messages (messages (db w) ++ [x]) w)) k'
          = Some x) as Hx.
  { apply (get_message_appended w x). apply get_message_fresh. }
  eexists _, _, k'. split; [reflexivity|].
  split; [reflexivity|]. split; [rewrite Hx; by eexists|].
  split; [simpl; by rewrite Hpk|].
  split; [unfold get_chain in *; simpl; by eexists|].
  split; [reflexivity|]. split; [reflexivity|].
  split; [simpl; rewrite length_app; simpl; lia|].
  rewrite Hx. simpl. by rewrite Hpk.
Qed.

(** X4: replicating [n] times down a line from a saved message, each
    time the child of the step before, returns a message [n] generations
    below it, in the same chain, and the table has [n] more rows. *)
Theorem descend_generations (n : nat) (m : Message) (w : World) (k cid : Z) :
  pk m = Some k -> is_Some (get_message (db w) k) ->
  chain_id m = Some cid -> is_Some (get_chain (db w) cid) ->
  exists last w',
    descend n m w = (Return last, w')
    /\ generation last = (generation m + Z.of_nat n)%Z
    /\ chain_id last = chain_id m
    /\ length (messages (db w')) = (length (messages (db w)) + n)%nat.
Proof.
  revert m w k; induction n as [|n IH]; intros m w k Hk Hs Hcid Hc.
  - exists m, w. simpl. unfold ret. repeat split; [lia|lia].
  - destruct (replicate_step m w k cid Hk Hs Hcid Hc)
      as (child & w1 & k1 & Hrep & Hk1 & Hs1 & Hcid1 & Hc1 & Hg & _ & Hlen & _).
    destruct (IH child w1 k1 Hk1 Hs1 Hcid1 Hc1)
      as (last & w' & Hd & Hgl & Hcl & Hll).
    exists last, w'. simpl. unfold bind. rewrite Hrep.
    split; [exact Hd|]. split; [lia|]. split; [congruence|lia].
Qed.

Lemma descend_generations_witness :
  exists last w',
    descend 3 (from_db row_second) world0 = (Return last, w')
    /\ generation last = (generation (from_db row_second) + Z.of_nat 3)%Z
    /\ chain_id last = chain_id (from_db row_second)
    /\ length (messages (db w')) = (length (messages (db world0)) + 3)%nat.
Proof.
  apply (descend_generations 3 (from_db row_second) world0 3 1).
  - reflexivity.
  - by eexists.
  - reflexivity.
  - by eexists.
Defined.

(** X5: after a message of a chain was replicated, the chain has a message
    to serve: [pick_next_message] returns, under either selection method,
    and what it serves is an unrecorded message of the chain. *)
Theorem replicate_then_pick (m : Message) (self : Chain) (w : World) (k : Z) :
  pk m = Some k -> is_Some (get_message (db w) k) ->
  chain_id m = Some (chain_pk self) ->
  is_Some (get_chain (db w) (chain_pk self)) ->
  exists child w1 r w2,
    Message.replicate m w = (Return child, w1)
    /\ Chain.pick_next_message self w1 = (Return (from_db r), w2)
    /\ available self (db w1) r.
Proof.
  intros Hk Hs Hcid Hc.
  destruct (replicate_step m w k (chain_pk self) Hk Hs Hcid Hc)
    as (child & w1 & k1 & Hrep & Hk1 & _ & _ & _ & _ & _ & _ & Hrc & Hra).
  destruct (get_message (db w1) k1) as [x|] eqn:Hx; [|discriminate].
  simpl in Hrc, Hra. inversion Hrc as [Hrc']. inversion Hra as [Hra'].
  apply get_message_Some in Hx as [Hin _].
  assert (available self (db w1) x) as Hav by done.
  apply unrecorded_available in Hav.
  destruct (unrecorded_rows self (db w1)) as [|r rs] eqn:E;
    [inversion Hav|].
  destruct (pick_next_message_some self w1 r rs E)
    as (m' & w2 & Hpick & Hin' & _).
  exists child, w1, m', w2. split; [exact Hrep|]. split; [exact Hpick|].
  apply unrecorded_available. by rewrite E.
Qed.

Lemma replicate_then_pick_witness :
  exists child w1 r w2,
    Message.replicate (from_db row_seed) world_one = (Return child, w1)
    /\ Chain.pick_next_message chain_a w1 = (Return (from_db r), w2)
    /\ available chain_a (db w1) r.
Proof.
  apply (replicate_then_pick (from_db row_seed) chain_a world_one 1).
  - reflexivity.
  - by eexists.
  - reflexivity.
  - by eexists.
Defined.

(** ** Message.full_clean, again *)

Lemma parent_set_generation (g : Z) (self : Message) (w : World) :
  Message.parent (set_generation g self) w = Message.parent self w.
Proof. reflexivity. Qed.

(** X6: cleaning is idempotent: cleaning the instance that a first
    [full_clean] left gives the same outcome and the same instance. *)
Theorem full_clean_twice (self : Message) (w : World) :
  Message.full_clean (snd (fst (Message.full_clean self w))) w
  = Message.full_clean self w.
Proof.
  unfold Message.full_clean at 2.
  pose proof (parent_reads self w) as Hw.
  destruct (Message.parent self w) as [[[p|]|e] w1] eqn:Hp;
    simpl in Hw; subst w1.
  - pose proof (Model_full_clean_reads
                  (set_generation (generation p + 1) self) w) as Hm.
    destruct (Message.Model_full_clean _ w) as [r w2] eqn:Hc.
    simpl in Hm. subst w2. simpl.
    unfold Message.full_clean. rewrite parent_set_generation, Hp.
    replace (set_generation (generation p + 1)
               (set_generation (generation p + 1) self))
      with (set_generation (generation p + 1) self) by done.
    by rewrite Hc.
  - pose proof (Model_full_clean_reads self w) as Hm.
    destruct (Message.Model_full_clean self w) as [r w2] eqn:Hc.
    simpl in Hm. subst w2. simpl.
    unfold Message.full_clean. by rewrite Hp, Hc.
  - simpl. unfold Message.full_clean. by rewrite Hp.
Qed.

(** ** Game.pick_next_chain, again *)

(** X7: a pick makes progress: once the key of the chain that was picked
    is added to the receipts, that chain is no longer among the remaining
    ones and strictly fewer chains remain, so a game with [n] chains is
    over after at most [n] picks. *)
Theorem pick_next_chain_progress (self : Game) (receipts : list Z)
    (w w' : World) (c : Chain) :
  Game.pick_next_chain self receipts w = (Return c, w') ->
  (c ∉ remaining_chains self (chain_pk c :: receipts) (db w'))
  /\ (length (remaining_chains self (chain_pk c :: receipts) (db w'))
      < length (remaining_chains self receipts (db w)))%nat.
Proof.
  intros Hpick.
  destruct (remaining_chains self receipts (db w)) as [|r rs] eqn:E.
  { destruct (pick_next_chain_none self receipts w E) as [msg H].
    congruence. }
  destruct (pick_next_chain_some self receipts w r rs E)
    as (c' & w'' & Hpick' & Hin & Hdb & _).
  rewrite Hpick in Hpick'. inversion Hpick'; subst c' w''.
  rewrite Hdb. rewrite <- E in *. split.
  - intros H. apply candidates_remaining in H as (_ & _ & H).
    apply H. left.
  - assert (remaining_chains self (chain_pk c :: receipts) (db w)
            = filter (fun x => chain_pk x <> chain_pk c)
                     (remaining_chains self receipts (db w))) as ->.
    { unfold remaining_chains, exclude_pk_in.
      rewrite !list_filter_filter. apply list_filter_iff.
      intros x. rewrite not_elem_of_cons. tauto. }
    apply (length_filter_lt _ _ c); [exact Hin|]. intros H. by apply H.
Qed.

Lemma pick_next_chain_progress_witness :
  (chain_a ∉ remaining_chains game_seq (chain_pk chain_a :: []) (db world0))
  /\ (length (remaining_chains game_seq (chain_pk chain_a :: []) (db world0))
      < length (remaining_chains game_seq [] (db world0)))%nat.
Proof.
  apply (pick_next_chain_progress game_seq [] world0 world0 chain_a).
  reflexivity.
Defined.

(** Any row can come first out of [order_by('?')]. *)
Lemma insert_at_hd {A} (n : nat) (x y : A) (l : list A) :
  hd_error (insert_at (S n) x (y :: l)) = Some y.
Proof. reflexivity. Qed.

Lemma shuffle_cons {A} (draws : list nat) (x : A) (t : list A) :
  shuffle draws (x :: t)
  = insert_at (Nat.modulo (hd O draws) (S (length t))) x
              (shuffle (tl draws) t).
Proof. reflexivity. Qed.

Lemma shuffle_any_first {A} (l : list A) (x : A) :
  x ∈ l -> exists draws, hd_error (shuffle draws l) = Some x.
Proof.
  induction l as [|y t IH]; intros Hx; [inversion Hx|].
  apply elem_of_cons in Hx as [->|Hx].
  - exists [O]. rewrite shuffle_cons. simpl hd.
    by rewrite Nat.Div0.mod_0_l.
  - destruct (IH Hx) as [draws Hd]. exists (1%nat :: draws).
    rewrite shuffle_cons. simpl hd. simpl tl.
    destruct (shuffle draws t) as [|h s] eqn:Es; [discriminate|].
    destruct t as [|z t']; [inversion Hx|].
    replace (Nat.modulo 1 (S (length (z :: t')))) with 1%nat.
    + rewrite insert_at_hd. exact Hd.
    + symmetry. apply Nat.mod_small. simpl. lia.
Qed.

(** X8: under 'RND' every remaining chain can be the one served: for each
    of them there are draws of the database with which [pick_next_chain]
    returns it. *)
Theorem pick_next_chain_random_any (self : Game) (receipts : list Z)
    (d : DB) (c : Chain) :
  chain_order self = "RND" ->
  remaining self receipts d c ->
  exists draws,
    fst (Game.pick_next_chain self receipts (Build_World d draws))
    = Return c.
Proof.
  intros Hrnd Hc.
  apply (candidates_remaining self receipts (Build_World d [])) in Hc.
  simpl in Hc.
  destruct (shuffle_any_first _ c Hc) as [draws Hd].
  exists draws. unfold remaining_chains in Hc, Hd.
  unfold Game.pick_next_chain, chain_set.
  unfold bind at 1. unfold bind at 1. unfold get_db, ret at 1. cbn [db].
  destruct (decide (length _ = O)) as [Hlen|_].
  { apply nil_length_inv in Hlen. rewrite Hlen in Hc. inversion Hc. }
  destruct (exclude_pk_in receipts _) as [|r rs] eqn:E; [inversion Hc|].
  destruct (decide (chain_order self = "RND")); [|contradiction].
  unfold bind, order_by_random. cbn [entropy].
  destruct (shuffle draws (r :: rs)) as [|h s]; [discriminate|].
  simpl in Hd. inversion Hd. reflexivity.
Qed.

Lemma pick_next_chain_random_any_witness :
  exists draws,
    fst (Game.pick_next_chain game_rnd [] (Build_World store0 draws))
    = Return chain_c.
Proof.
  apply (pick_next_chain_random_any game_rnd [] store0 chain_c).
  - reflexivity.
  - split; [do 2 right; left|]. split; [reflexivity|]. intros H. inversion H.
Defined.

(** ** Chain.pick_next_message, again *)

Lemma sorted_head_first {A} (key : A -> Z) (l : list A) (h : A) (t : list A) :
  sorted l key = h :: t ->
  exists l1 l2, l = (l1 ++ h :: l2)%list
                /\ forall y, y ∈ l1 -> (key h < key y)%Z.
Proof.
  revert h t; induction l as [|x l IH]; intros h t Hs; [discriminate|].
  simpl in Hs. fold (sorted l key) in Hs.
  destruct (sorted l key) as [|a s'] eqn:Es.
  - apply sorted_nil_inv in Es. subst l. simpl in Hs. inversion Hs; subst.
    exists [], []. split; [done|]. intros y Hy. inversion Hy.
  - destruct (IH a s' eq_refl) as (l1 & l2 & -> & Hl1).
    simpl in Hs. destruct (key x <=? key a)%Z eqn:E.
    + inversion Hs; subst. exists [], (l1 ++ a :: l2)%list.
      split; [done|]. intros y Hy. inversion Hy.
    + apply Z.leb_gt in E. inversion Hs; subst.
      exists (x :: l1), l2. split; [done|].
      intros y Hy. apply elem_of_cons in Hy as [->|Hy]; [lia|by apply Hl1].
Qed.

Lemma from_db_inj (r r' : MessageRow) : from_db r = from_db r' -> r = r'.
Proof. destruct r, r'. unfold from_db. simpl. intros H. by inversion H. Qed.

(** X9: under 'YNG', ties go to the message stored first: every
    unrecorded message of the chain that comes before the served one in the
    table is at a strictly larger generation, and none is at a smaller
    one. *)
Theorem pick_next_message_first_stored (self : Chain) (w w' : World)
    (r : MessageRow) :
  selection_method self = "YNG" ->
  Chain.pick_next_message self w = (Return (from_db r), w') ->
  exists l1 l2,
    unrecorded_rows self (db w) = (l1 ++ r :: l2)%list
    /\ (forall y, y ∈ l1 -> (row_generation r < row_generation y)%Z)
    /\ (forall y, y ∈ l2 -> (row_generation r <= row_generation y)%Z).
Proof.
  intros Hyng Hpick.
  destruct (unrecorded_rows self (db w)) as [|r0 rs] eqn:E.
  { destruct (pick_next_message_none self w E) as [msg H]. congruence. }
  destruct (pick_next_message_some self w r0 rs E)
    as (m & w'' & Hpick' & _ & _ & Hfirst).
  rewrite Hpick in Hpick'.
  assert (from_db r = from_db m) as Hm by congruence.
  apply from_db_inj in Hm. subst m.
  destruct Hfirst as [_ Hhd]; [rewrite Hyng; discriminate|].
  destruct (sorted (from_db <$> r0 :: rs) generation) as [|x s] eqn:Es;
    [discriminate|].
  inversion Hhd; subst x.
  pose proof (sorted_head_least generation _ _ _ Es) as Hleast.
  destruct (sorted_head_first generation _ _ _ Es) as (L1 & L2 & HL & HL1).
  apply fmap_app_inv in HL as (l1 & l2' & -> & HL2 & Hrows).
  symmetry in HL2.
  apply fmap_cons_inv in HL2 as (r' & l2 & Hr' & -> & ->).
  apply from_db_inj in Hr'. subst r'.
  exists l1, l2. split; [exact Hrows|]. split.
  - intros y Hy. apply (HL1 (from_db y)). by apply list_elem_of_fmap_2.
  - intros y Hy. apply (Hleast (from_db y)). apply list_elem_of_fmap_2.
    rewrite Hrows. apply elem_of_app. right. by right.
Qed.

Lemma pick_next_message_first_stored_witness :
  exists l1 l2,
    unrecorded_rows chain_a (db world0) = (l1 ++ row_first :: l2)%list
    /\ (forall y, y ∈ l1 -> (row_generation row_first < row_generation y)%Z)
    /\ (forall y, y ∈ l2 -> (row_generation row_first <= row_generation y)%Z).
Proof.
  apply (pick_next_message_first_stored chain_a world0 world0 row_first);
    reflexivity.
Defined.

(** ** Names and directories *)

Lemma key_char_digit (n : N) : key_char (pretty_N_char n) = true.
Proof. unfold pretty_N_char. by repeat case_match. Qed.

Lemma pretty_N_go_chars (x : N) (s : string) :
  all_chars key_char s = true ->
  all_chars key_char (pretty_N_go x s) = true.
Proof.
  revert s. induction (N.lt_wf_0 x) as [x _ IH]; intros s Hs.
  assert (x = 0 \/ 0 < x)%N as [->|Hx] by lia.
  - by rewrite pretty_N_go_0.
  - rewrite pretty_N_go_step by done. apply IH.
    + by apply N.div_lt.
    + simpl. by rewrite key_char_digit, Hs.
Qed.

Lemma pretty_Z_chars (z : Z) : all_chars key_char (pretty z) = true.
Proof.
  assert (forall n : N, all_chars key_char (pretty n) = true) as HN.
  { intros n. unfold pretty, pretty_N. case_decide; [done|].
    by apply pretty_N_go_chars. }
  destruct z as [|q|q]; [done|apply (HN (Npos q))|].
  unfold pretty, pretty_Z. simpl. apply (HN (Npos q)).
Qed.

Lemma append_sep_inj (P : ascii -> bool) (sep : ascii) (s1 s2 t1 t2 : string) :
  all_chars P s1 = true -> all_chars P s2 = true -> P sep = false ->
  s1 ++ String sep t1 = s2 ++ String sep t2 -> s1 = s2 /\ t1 = t2.
Proof.
  intros H1 H2 Hsep. revert s2 H2.
  induction s1 as [|a s1 IH]; intros [|b s2] H2 E; simpl in *.
  - by inversion E.
  - inversion E; subst. apply andb_true_iff in H2 as [Hb _]. congruence.
  - inversion E; subst. apply andb_true_iff in H1 as [Ha _]. congruence.
  - inversion E; subst.
    apply andb_true_iff in H1 as [_ H1]. apply andb_true_iff in H2 as [_ H2].
    destruct (IH H1 s2 H2) as [-> ->]; done.
Qed.

Lemma game_dirname_inj (g g' : Game) :
  Game.dirname g = Game.dirname g' <-> game_pk g = game_pk g'.
Proof.
  unfold Game.dirname. split; [|by intros ->].
  intros H. simpl in H. inversion H as [H']. by apply pretty_Z_inj.
Qed.

(** X10: the directory names tell games apart, and chains apart: two
    games have the same [dirname] exactly when they have the same key, and
    so for chains. *)
Theorem dirname_distinct (g g' : Game) (c c' : Chain) :
  (Game.dirname g = Game.dirname g' <-> game_pk g = game_pk g')
  /\ (Chain.dirname c = Chain.dirname c' <-> chain_pk c = chain_pk c').
Proof.
  split; [apply game_dirname_inj|].
  unfold Chain.dirname. split; [|by intros ->].
  intros H. simpl in H. inversion H as [H']. by apply pretty_Z_inj.
Qed.

Lemma get_game_Some (d : DB) (k : Z) (g : Game) :
  get_game d k = Some g -> g ∈ games d /\ game_pk g = k.
Proof.
  unfold get_game. intros H. apply find_some in H as [Hin Hk].
  split; [by apply list_elem_of_In|by apply Z.eqb_eq].
Qed.

(** X11: the directory of a chain, ['game-<g>/chain-<c>'], determines
    both keys: two chains with the same [dirpath] have the same key and
    belong to the same game, so recordings of different chains never share
    a directory. *)
Theorem dirpath_distinct (d : DB) (c c' : Chain) (p : string) :
  Chain.dirpath d c = Some p -> Chain.dirpath d c' = Some p ->
  chain_pk c = chain_pk c' /\ chain_game c = chain_game c'.
Proof.
  unfold Chain.dirpath. intros H H'.
  destruct (get_game d (chain_game c)) as [g|] eqn:Hg; [|discriminate].
  destruct (get_game d (chain_game c')) as [g'|] eqn:Hg'; [|discriminate].
  apply get_game_Some in Hg as [_ Hg]. apply get_game_Some in Hg' as [_ Hg'].
  inversion H as [Hp]. rewrite <- Hp in H'. inversion H' as [E]. clear H H' Hp.
  unfold Chain.dirname in E.
  apply (append_sep_inj key_char "/"%char) in E as [E1 E2];
    [|apply pretty_Z_chars|apply pretty_Z_chars|done].
  inversion E2 as [E3]. cbn [String.append] in E1, E3.
  apply pretty_Z_inj in E1. apply pretty_Z_inj in E3. split; congruence.
Qed.

Lemma dirpath_distinct_witness :
  Chain.dirpath store0 chain_c = Some "game-2/chain-3"
  /\ chain_pk chain_c = chain_pk chain_c
  /\ chain_game chain_c = chain_game chain_c.
Proof.
  split; [reflexivity|].
  apply (dirpath_distinct store0 chain_c chain_c "game-2/chain-3");
    reflexivity.
Defined.

Lemma pretty_not_None (k : Z) : pretty k <> "None".
Proof.
  intros H. pose proof (pretty_Z_chars k) as Hc. rewrite H in Hc.
  discriminate Hc.
Qed.

(** X12: what [__str__] shows is never empty, and for games without a
    name, and for messages without a name, it tells the keys apart; a
    message that was never saved shows as no saved message does. *)
Theorem str_unnamed (g g' : Game) (m m' : Message) :
  Game.__str__ g <> ""
  /\ Message.__str__ m <> ""
  /\ (unnamed_game g -> unnamed_game g' ->
      (Game.__str__ g = Game.__str__ g' <-> game_pk g = game_pk g'))
  /\ (unnamed_message m -> unnamed_message m' ->
      (Message.__str__ m = Message.__str__ m' <-> pk m = pk m')).
Proof.
  assert (forall x, unnamed_game x -> Game.__str__ x = Game.dirname x) as Hg.
  { intros x [H|H]; unfold Game.__str__; rewrite H; [done|].
    by destruct (decide _). }
  split; [|split; [|split]].
  - unfold Game.__str__. destruct (game_name g) as [n|]; [|done].
    by destruct (decide (n = "")).
  - unfold Message.__str__. by destruct (decide (name m = "")).
  - intros Hu Hu'. rewrite (Hg g Hu), (Hg g' Hu').
    apply (game_dirname_inj g g').
  - unfold unnamed_message, Message.__str__. intros -> ->. simpl.
    destruct (pk m) as [k|], (pk m') as [k'|]; split; intros H;
      try done; try (inversion H as [H']).
    + apply pretty_Z_inj in H'. by subst.
    + by inversion H.
    + by destruct (pretty_not_None k).
    + symmetry in H'. by destruct (pretty_not_None k').
Qed.

(** ** Chain.to_dict *)

Lemma for_each_returns {A B} (f : A -> ORM B) (P : A -> B -> Prop)
    (xs : list A) (w : World) :
  (forall x, x ∈ xs -> exists y, f x w = (Return y, w) /\ P x y) ->
  exists ys, for_each f xs w = (Return ys, w) /\ Forall2 P xs ys.
Proof.
  induction xs as [|x xs IH]; intros H.
  - exists []. split; [reflexivity|constructor].
  - destruct (H x) as (y & Hy & Py); [left|].
    destruct IH as (ys & Hys & Pys); [intros z Hz; apply H; by right|].
    exists (y :: ys). simpl. unfold bind. rewrite Hy, Hys.
    split; [reflexivity|by constructor].
Qed.

Section ChainToDict.

Variable reverse : string -> option Z -> Outcome string.
Variable url : string -> string.

(** Every route resolves for a message that has a key. *)
Hypothesis routes :
  forall viewname k, exists u, reverse viewname (Some k) = Return u.

Lemma to_dict_loaded (w : World) (r : MessageRow) :
  store_ok (db w) -> r ∈ messages (db w) ->
  exists d : gmap string Value,
    Message.to_dict reverse url (from_db r) w = (Return d, w)
    /\ d !! "pk" = Some (VInt (row_id r))
    /\ d !! "generation" = Some (VInt (row_generation r))
    /\ d !! "parent" = Some (of_pk (row_parent r)).
Proof.
  intros Hok Hr.
  assert (exists p, Message.parent (from_db r) w = (Return p, w)
                    /\ match p with Some q => of_pk (pk q) | None => VNone end
                       = of_pk (row_parent r)) as (p & Hp & Hv).
  { unfold Message.parent. simpl.
    pose proof (parents_above _ Hok r Hr) as Hpa.
    destruct (row_parent r) as [k|]; [|by exists None].
    destruct Hpa as (q & Hq & _). unfold bind, get_db. rewrite Hq.
    apply get_message_Some in Hq as [_ <-]. by exists (Some (from_db q)). }
  destruct (routes "sprout" (row_id r)) as [s Hs].
  destruct (routes "close" (row_id r)) as [c Hc].
  destruct (routes "upload" (row_id r)) as [u Hu].
  unfold Message.to_dict, bind, Message.reverse_orm. rewrite Hp.
  change (pk (from_db r)) with (Some (row_id r)).
  rewrite Hs. rewrite <- Hv.
  destruct (decide (audio (from_db r) = "")).
  - rewrite Hc, Hu. eexists. split; [reflexivity|].
    repeat split; by simplify_map_eq.
  - eexists. split; [reflexivity|]. repeat split; by simplify_map_eq.
Qed.

(** X13: in a well-formed store, when the routes resolve, [Chain.to_dict]
    returns the chain's key and one dictionary for each message of the
    chain and for no other, in table order, each with the key, the
    generation and the parent key of its message; the store is as it
    was. *)
Theorem chain_to_dict_messages (self : Chain) (w : World) :
  store_ok (db w) ->
  exists (d : gmap string ChainValue) (dicts : list (gmap string Value)),
    Chain_to_dict reverse url self w = (Return d, w)
    /\ d !! "pk" = Some (CInt (chain_pk self))
    /\ d !! "messages" = Some (CMessages dicts)
    /\ Forall2
         (fun r m => m !! "pk" = Some (VInt (row_id r))
                     /\ m !! "generation" = Some (VInt (row_generation r))
                     /\ m !! "parent" = Some (of_pk (row_parent r)))
         (filter (fun r => row_chain r = chain_pk self) (messages (db w)))
         dicts.
Proof.
  intros Hok.
  set (rows := filter (fun r => row_chain r = chain_pk self) (messages (db w))).
  destruct (for_each_returns (Message.to_dict reverse url)
              (fun m d => exists r, m = from_db r
                 /\ d !! "pk" = Some (VInt (row_id r))
                 /\ d !! "generation" = Some (VInt (row_generation r))
                 /\ d !! "parent" = Some (of_pk (row_parent r)))
              (from_db <$> rows) w) as (dicts & Hd & HP).
  { intros m Hm. apply list_elem_of_fmap in Hm as (r & -> & Hr).
    apply list_elem_of_filter in Hr as [_ Hr].
    destruct (to_dict_loaded w r Hok Hr) as (d & Hd & Hrest).
    exists d. split; [exact Hd|]. by exists r. }
  exists (<["messages" := CMessages dicts]> (<["pk" := CInt (chain_pk self)]> ∅)),
    dicts.
  split; [|split; [by simplify_map_eq|split; [by simplify_map_eq|]]].
  - unfold Chain_to_dict, message_set. unfold bind at 1. unfold bind at 1.
    unfold get_db, ret at 1. fold rows. unfold bind. by rewrite Hd.
  - apply Forall2_fmap_l in HP. eapply Forall2_impl; [exact HP|].
    intros r d (r' & Hr' & H). simpl in Hr'.
    apply from_db_inj in Hr'. by subst r'.
Qed.

End ChainToDict.

Lemma chain_to_dict_messages_witness :
  exists (d : gmap string ChainValue) (dicts : list (gmap string Value)),
    Chain_to_dict reverse0 url0 chain_a world0 = (Return d, world0)
    /\ d !! "pk" = Some (CInt (chain_pk chain_a))
    /\ d !! "messages" = Some (CMessages dicts)
    /\ Forall2
         (fun r m => m !! "pk" = Some (VInt (row_id r))
                     /\ m !! "generation" = Some (VInt (row_generation r))
                     /\ m !! "parent" = Some (of_pk (row_parent r)))
         (filter (fun r => row_chain r = chain_pk chain_a)
                 (messages (db world0)))
         dicts.
Proof.
  apply (chain_to_dict_messages reverse0 url0).
  - intros viewname k. by eexists.
  - exact store0_ok.
Defined.

(** ** What validation accepts *)




(** ** The failing paths of [replicate], run *)

Example replicate_unsaved :
  exists msg,
    Message.replicate unsaved world0 = (Raise (ValueError msg), world0).
Proof. eexists. lazy. reflexivity. Qed.

Example replicate_stranger :
  Message.replicate stranger world0
  = (Raise (ValidationError ["parent"]), world0).
Proof. reflexivity. Qed.
